(** * AutoMontage: the timeline planner of [generate_montage] (app.py)

    The planner walks the clips in order. For each clip it computes the local
    window to cut out of the source clip and the position of that window on
    the final timeline, so that the clip's kill lands on its beat drop.

    Times are Python floats in the program. The loop is given twice, from
    the same lines of the source: on exact rationals ([Q]), for what depends
    only on comparisons, on the clamping and on the control flow, and on
    binary64 floats (module [B64], Rocq's primitive floats), for what depends
    on the rounding of sums and differences. Loading a clip and encoding the
    result are outside the model; a clip is represented by the two numbers
    the planner reads from it. *)

From Stdlib Require Import Floats.
From Stdlib Require Import Ascii String DecimalString DecimalNat.
From Stdlib Require Import Permutation Sorted.
From Stdlib Require Import QArith Qminmax List Lia Lqa Bool Arith.
Import ListNotations.
Open Scope Q_scope.

(** ** Exceptions and the error monad *)

(** The exceptions of the model: [previous_kill_final_time + 1] on [None] is
    a [TypeError], [beat_drops[i]] out of range and the composite of no clip
    are an [IndexError], and Python's [max] of no value is a [ValueError]. *)
Inductive exn : Type :=
| TypeError
| IndexError
| ValueError.

Inductive result (A : Type) : Type :=
| Ok (a : A)
| Raise (e : exn).
Arguments Ok {A} a.
Arguments Raise {A} e.

Definition bind {A B : Type} (r : result A) (k : A -> result B) : result B :=
  match r with
  | Ok a => k a
  | Raise e => Raise e
  end.

Notation "x <- r ;; k" := (bind r (fun x => k))
  (at level 61, r at next level, right associativity).

(** ** Python built-ins *)

(** [max(a, b)]: the first argument unless the second is strictly larger. *)
Definition py_max (a b : Q) : Q := if Qle_bool b a then a else b.

(** [min(a, b)]: the first argument unless the second is strictly smaller. *)
Definition py_min (a b : Q) : Q := if Qle_bool a b then a else b.

(** [a >= b]. *)
Definition py_ge (a b : Q) : bool := Qle_bool b a.

(** [xs[i]] for a non-negative index. *)
Definition py_index (xs : list Q) (i : nat) : result Q :=
  match nth_error xs i with
  | Some x => Ok x
  | None => Raise IndexError
  end.

(** [max(xs)] over a list. *)
Definition py_max_list (xs : list Q) : result Q :=
  match xs with
  | [] => Raise ValueError
  | x :: rest => Ok (fold_left py_max rest x)
  end.

(** ** Data *)

(** One entry of [clips_info], as the loop reads it: [clip_data["kill_time"]]
    and the [duration] of [VideoFileClip(clip_data["clip_path"])]. *)
Record clip_data : Type := mk_clip {
  duration : Q;
  kill_time : Q
}.

(** An element of [placed_clips]:
    [clip.subclipped(local_start, local_end).with_start(time_offset)], with
    the index of the clip it was cut from. *)
Record subclip : Type := mk_subclip {
  sub_index : nat;
  sub_local_start : Q;
  sub_local_end : Q;
  sub_time_offset : Q
}.

(** The end of a placed subclip on the final timeline: its start plus its
    length. *)
Definition sub_end (s : subclip) : Q :=
  sub_time_offset s + (sub_local_end s - sub_local_start s).

(** The variables the loop carries from one iteration to the next. *)
Record loop_state : Type := mk_state {
  previous_kill_final_time : option Q;
  placed_clips : list subclip
}.

Definition init_state : loop_state :=
  {| previous_kill_final_time := None; placed_clips := [] |}.

(** ** The planning loop *)

(** The local start before clamping (lines 51-66). *)
Definition raw_local_start (i : nat) (kill_time beat_time : Q)
    (previous : option Q) : result Q :=
  if Nat.eqb i 0 then Ok 0
  else
    match previous with
    | None => Raise TypeError
    | Some previous_kill =>
        let final_start_of_this_clip := previous_kill + 1 in
        Ok (kill_time - (beat_time - final_start_of_this_clip))
    end.

(** Clamping of a local time to the clip (lines 72-76). *)
Definition clamp (t clip_duration : Q) : Q :=
  py_min (py_max 0 t) clip_duration.

(** One iteration of the loop (lines 39-105). The [continue] of line 81
    leaves the state as it was. *)
Definition loop_body (beat_drops : list Q) (i : nat) (c : clip_data)
    (st : loop_state) : result loop_state :=
  beat_time <- py_index beat_drops i ;;
  let local_end := kill_time c + 1 in
  local_start <- raw_local_start i (kill_time c) beat_time
                   (previous_kill_final_time st) ;;
  let local_start := clamp local_start (duration c) in
  let local_end := clamp local_end (duration c) in
  if py_ge local_start local_end then Ok st
  else
    let kill_time_in_subclip := kill_time c - local_start in
    let time_offset := beat_time - kill_time_in_subclip in
    Ok {| previous_kill_final_time := Some beat_time;
          placed_clips :=
            placed_clips st ++ [mk_subclip i local_start local_end time_offset] |}.

(** [for i, clip_data in enumerate(clips_info)], started at index [i]. *)
Fixpoint for_loop (beat_drops : list Q) (i : nat) (clips_info : list clip_data)
    (st : loop_state) : result loop_state :=
  match clips_info with
  | [] => Ok st
  | c :: rest =>
      st' <- loop_body beat_drops i c st ;;
      for_loop beat_drops (S i) rest st'
  end.

(** The whole loop (lines 30-105). *)
Definition plan_loop (beat_drops : list Q) (clips_info : list clip_data)
    : result loop_state :=
  for_loop beat_drops 0 clips_info init_state.

(** The state of the loop when it is about to process index [k]. *)
Definition state_before (beat_drops : list Q) (clips_info : list clip_data)
    (k : nat) : result loop_state :=
  plan_loop beat_drops (firstn k clips_info).

(** The state of the loop when it has processed index [k]. *)
Definition state_after (beat_drops : list Q) (clips_info : list clip_data)
    (k : nat) : result loop_state :=
  state_before beat_drops clips_info (S k).

(** Modelled from the spec: the duration of [CompositeVideoClip(placed_clips)]
    is computed by the video library, which is not part of the repository.
    The spec gives it as the maximum over all plans of
    [offset + (trim_end - trim_start)]. With no plan there is no such
    maximum: the library reads the first element of the list it is given,
    an [IndexError] on the empty list. *)
Definition composite_duration (placed : list subclip) : result Q :=
  match placed with
  | [] => Raise IndexError
  | _ :: _ => py_max_list (map sub_end placed)
  end.

(** [generate_montage], up to [final_duration] (lines 29-111). The audio clip
    is represented by its duration. The result is the list of placed subclips
    and the final duration. *)
Definition generate_montage (audio_duration : Q)
    (clips_info : list clip_data) (beat_drops : list Q)
    : result (list subclip * Q) :=
  st <- plan_loop beat_drops clips_info ;;
  video_duration <- composite_duration (placed_clips st) ;;
  let final_duration := py_max video_duration audio_duration in
  Ok (placed_clips st, final_duration).

(** ** The checks of the caller *)

(** The warnings [main] shows before it gives up (lines 166-188). *)
Inductive warning : Type :=
| NoSong
| NoClips
| KillTimesMismatch
| BeatDropsMismatch.

Inductive main_outcome : Type :=
| Warned (w : warning)
| Generated (placed : list subclip) (final_duration : Q)
| Failed (e : exn).

(** [clips_info] as [main] builds it (lines 191-197): clip [i] is paired with
    [kill_times[i]]. The lengths are known to agree at that point. *)
Definition build_clips_info (clip_durations kill_times : list Q)
    : list clip_data :=
  map (fun dk => mk_clip (fst dk) (snd dk)) (combine clip_durations kill_times).

(** The handler of the button of [main] (lines 165-216), once the two text
    inputs are parsed. The song is represented by its duration when one was
    uploaded, and every uploaded clip by its duration. *)
Definition main (song : option Q) (clips_uploaded kill_times beat_drops : list Q)
    : main_outcome :=
  match song with
  | None => Warned NoSong
  | Some audio_duration =>
      match clips_uploaded with
      | [] => Warned NoClips
      | _ :: _ =>
          if negb (Nat.eqb (length kill_times) (length clips_uploaded))
          then Warned KillTimesMismatch
          else if negb (Nat.eqb (length beat_drops) (length clips_uploaded))
          then Warned BeatDropsMismatch
          else
            match generate_montage audio_duration
                    (build_clips_info clips_uploaded kill_times) beat_drops with
            | Ok (placed, final_duration) => Generated placed final_duration
            | Raise e => Failed e
            end
      end
  end.

(** ** The planning loop in binary64 *)

(** The loop of [generate_montage] (lines 36-105) on Python's floats, which
    are IEEE 754 binary64 numbers as Rocq's primitive floats are: every [+]
    and [-] of the source is the rounded operation, every comparison the
    comparison of floats. The integer literals [0] and [1] of the source
    stand for the floats they are converted to in mixed arithmetic. *)
Module B64.

(** [max(a, b)]: the first argument unless the second is strictly larger. *)
Definition py_max (a b : float) : float := if PrimFloat.ltb a b then b else a.

(** [min(a, b)]: the first argument unless the second is strictly smaller. *)
Definition py_min (a b : float) : float := if PrimFloat.ltb b a then b else a.

(** [a >= b]. *)
Definition py_ge (a b : float) : bool := PrimFloat.leb b a.

(** [xs[i]] for a non-negative index. *)
Definition py_index (xs : list float) (i : nat) : result float :=
  match nth_error xs i with
  | Some x => Ok x
  | None => Raise IndexError
  end.

(** One entry of [clips_info], as the loop reads it. *)
Record clip_data : Type := mk_clip {
  duration : float;
  kill_time : float
}.

(** An element of [placed_clips]. *)
Record subclip : Type := mk_subclip {
  sub_index : nat;
  sub_local_start : float;
  sub_local_end : float;
  sub_time_offset : float
}.

(** The variables the loop carries from one iteration to the next. *)
Record loop_state : Type := mk_state {
  previous_kill_final_time : option float;
  placed_clips : list subclip
}.

Definition init_state : loop_state :=
  {| previous_kill_final_time := None; placed_clips := [] |}.

(** The local start before clamping (lines 51-66). *)
Definition raw_local_start (i : nat) (kill_time beat_time : float)
    (previous : option float) : result float :=
  if Nat.eqb i 0 then Ok 0%float
  else
    match previous with
    | None => Raise TypeError
    | Some previous_kill =>
        let final_start_of_this_clip := (previous_kill + 1)%float in
        Ok (kill_time - (beat_time - final_start_of_this_clip))%float
    end.

(** Clamping of a local time to the clip (lines 72-76). *)
Definition clamp (t clip_duration : float) : float :=
  py_min (py_max 0%float t) clip_duration.

(** One iteration of the loop (lines 39-105). *)
Definition loop_body (beat_drops : list float) (i : nat) (c : clip_data)
    (st : loop_state) : result loop_state :=
  beat_time <- py_index beat_drops i ;;
  let local_end := (kill_time c + 1)%float in
  local_start <- raw_local_start i (kill_time c) beat_time
                   (previous_kill_final_time st) ;;
  let local_start := clamp local_start (duration c) in
  let local_end := clamp local_end (duration c) in
  if py_ge local_start local_end then Ok st
  else
    let kill_time_in_subclip := (kill_time c - local_start)%float in
    let time_offset := (beat_time - kill_time_in_subclip)%float in
    Ok {| previous_kill_final_time := Some beat_time;
          placed_clips :=
            placed_clips st ++ [mk_subclip i local_start local_end time_offset] |}.

(** [for i, clip_data in enumerate(clips_info)], started at index [i]. *)
Fixpoint for_loop (beat_drops : list float) (i : nat)
    (clips_info : list clip_data) (st : loop_state) : result loop_state :=
  match clips_info with
  | [] => Ok st
  | c :: rest =>
      st' <- loop_body beat_drops i c st ;;
      for_loop beat_drops (S i) rest st'
  end.

(** The whole loop (lines 30-105). *)
Definition plan_loop (beat_drops : list float) (clips_info : list clip_data)
    : result loop_state :=
  for_loop beat_drops 0 clips_info init_state.

(** The state of the loop when it is about to process index [k]. *)
Definition state_before (beat_drops : list float)
    (clips_info : list clip_data) (k : nat) : result loop_state :=
  plan_loop beat_drops (firstn k clips_info).

(** The state of the loop when it has processed index [k]. *)
Definition state_after (beat_drops : list float)
    (clips_info : list clip_data) (k : nat) : result loop_state :=
  state_before beat_drops clips_info (S k).

End B64.

(** ** File names and the order of the uploads *)

(** File names and the two text inputs are strings of bytes; the model covers
    ASCII names, on which the class [\d] of the pattern is the digits 0-9. *)

(** [\d] on an ASCII character. *)
Definition is_digit (c : ascii) : bool :=
  andb (Nat.leb 48 (nat_of_ascii c)) (Nat.leb (nat_of_ascii c) 57).

(** The value of a digit. *)
Definition digit_value (c : ascii) : nat := (nat_of_ascii c - 48)%nat.

(** The greedy [\d*] at the start of a string, and what follows it. *)
Fixpoint span_digits (s : string) : string * string :=
  match s with
  | EmptyString => (EmptyString, EmptyString)
  | String c rest =>
      if is_digit c
      then let (digits, after) := span_digits rest in (String c digits, after)
      else (EmptyString, s)
  end.

(** [int(digits)] on a string of digits, most significant digit first. *)
Fixpoint int_of_digits_acc (acc : nat) (digits : string) : nat :=
  match digits with
  | EmptyString => acc
  | String c rest => int_of_digits_acc (10 * acc + digit_value c) rest
  end.

Definition int_of_digits (digits : string) : nat := int_of_digits_acc 0 digits.

(** The rest of [s] after the literal [literal], when [s] starts with it. *)
Fixpoint strip_literal (literal s : string) : option string :=
  match literal with
  | EmptyString => Some s
  | String a literal' =>
      match s with
      | EmptyString => None
      | String b s' =>
          if Ascii.eqb a b then strip_literal literal' s' else None
      end
  end.

(** The pattern [clip(\d+)] matched at the very start of a string:
    [int(match.group(1))] when it matches. *)
Definition match_clip_number (s : string) : option nat :=
  match strip_literal "clip" s with
  | None => None
  | Some rest =>
      match span_digits rest with
      | (EmptyString, _) => None
      | (digits, _) => Some (int_of_digits digits)
      end
  end.

(** The values of [extract_number]: an [int], or [float('inf')]. *)
Inductive sort_key : Type :=
| Num (n : nat)
| Inf.

(** [extract_number] (lines 7-9): [re.search] tries the pattern at every
    position from the left and keeps the first match. *)
Fixpoint extract_number (filename : string) : sort_key :=
  match match_clip_number filename with
  | Some n => Num n
  | None =>
      match filename with
      | EmptyString => Inf
      | String _ rest => extract_number rest
      end
  end.

(** [a < b] between the values of [extract_number]: every [int] is below
    [float('inf')], which is not below itself. *)
Definition key_ltb (a b : sort_key) : bool :=
  match a, b with
  | Num x, Num y => Nat.ltb x y
  | Num _, Inf => true
  | Inf, _ => false
  end.

(** [sorted(xs, key=key)]. Python's sort is stable and compares keys with
    [<] only; it is given here as insertion from the right, which returns
    the same list as any stable sort. *)
Fixpoint insert_by {A : Type} (key : A -> sort_key) (x : A) (l : list A)
    : list A :=
  match l with
  | [] => [x]
  | y :: rest =>
      if key_ltb (key y) (key x) then y :: insert_by key x rest else x :: l
  end.

Definition py_sorted {A : Type} (key : A -> sort_key) (xs : list A) : list A :=
  fold_right (insert_by key) [] xs.

(** An uploaded file: its [name], and for a media file the duration the
    video library reports for its content. *)
Record uploaded_file : Type := mk_upload {
  name : string;
  media_duration : Q
}.

(** The clips in the order [main] processes them (lines 148-152). *)
Definition sort_clips (clips_uploaded : list uploaded_file)
    : list uploaded_file :=
  py_sorted (fun x => extract_number (name x)) clips_uploaded.

(** [s.split(sep)] for a separator of one character: the pieces between the
    separators, empty pieces included; never the empty list. *)
Fixpoint split (sep : ascii) (s : string) : list string :=
  match s with
  | EmptyString => [EmptyString]
  | String c rest =>
      if Ascii.eqb c sep then EmptyString :: split sep rest
      else
        match split sep rest with
        | piece :: pieces => String c piece :: pieces
        | [] => [String c EmptyString]
        end
  end.

(** [file.name.split(".")[-1]] (lines 134 and 193). *)
Definition extension (file_name : string) : string :=
  last (split "." file_name) EmptyString.

(** [str(i)] for a non-negative [int]. *)
Definition str (i : nat) : string := NilEmpty.string_of_uint (Nat.to_uint i).

(** The file the song is written to (line 134). *)
Definition song_path (song_name : string) : string :=
  ("temp_song." ++ extension song_name)%string.

(** The file the clip of index [i] is written to (line 193). *)
Definition clip_path (i : nat) (clip_name : string) : string :=
  ("temp_clip_" ++ str i ++ "." ++ extension clip_name)%string.

(** ** The text inputs *)

(** [[float(x.strip()) for x in text.split(",")]] (lines 176-177). The
    conversion [float(x.strip())] is Python's and is a parameter, [None]
    standing for its [ValueError]. *)
Definition parse_times (py_float : string -> option Q) (text : string)
    : option (list Q) :=
  fold_right
    (fun x parsed =>
       match py_float x, parsed with
       | Some v, Some vs => Some (v :: vs)
       | _, _ => None
       end)
    (Some []) (split "," text).

(** What pressing the button leads to: the parse error of line 179, or one
    of the outcomes of the rest of the handler. *)
Inductive button_outcome : Type :=
| ParseFailed
| Handled (o : main_outcome).

(** [main] from the uploads and the two text inputs (lines 147-216): the
    clips are sorted by the number in their name, the song and the clips
    are checked, the text inputs are parsed, and the rest is [main] above on
    the sorted clips. *)
Definition main_button (py_float : string -> option Q)
    (song_file : option uploaded_file) (clips_uploaded : list uploaded_file)
    (kill_times_input beat_drops_input : string) : button_outcome :=
  let clips_uploaded := sort_clips clips_uploaded in
  match song_file with
  | None => Handled (Warned NoSong)
  | Some song =>
      match clips_uploaded with
      | [] => Handled (Warned NoClips)
      | _ :: _ =>
          match parse_times py_float kill_times_input with
          | None => ParseFailed
          | Some kill_times =>
              match parse_times py_float beat_drops_input with
              | None => ParseFailed
              | Some beat_drops =>
                  Handled (main (Some (media_duration song))
                             (map media_duration clips_uploaded)
                             kill_times beat_drops)
              end
          end
      end
  end.

(** ** Vocabulary of the statements *)

(** What an iteration does when it does not raise: it read a beat time and a
    raw local start, and then either skipped the clip or placed a subclip. *)
Inductive iteration (beat_drops : list Q) (i : nat) (c : clip_data)
    (st : loop_state) : loop_state -> Prop :=
| iter_skip beat_time raw :
    nth_error beat_drops i = Some beat_time ->
    raw_local_start i (kill_time c) beat_time (previous_kill_final_time st)
      = Ok raw ->
    clamp (kill_time c + 1) (duration c) <= clamp raw (duration c) ->
    iteration beat_drops i c st st
| iter_place beat_time raw :
    nth_error beat_drops i = Some beat_time ->
    raw_local_start i (kill_time c) beat_time (previous_kill_final_time st)
      = Ok raw ->
    clamp raw (duration c) < clamp (kill_time c + 1) (duration c) ->
    iteration beat_drops i c st
      {| previous_kill_final_time := Some beat_time;
         placed_clips :=
           placed_clips st ++
           [mk_subclip i (clamp raw (duration c))
              (clamp (kill_time c + 1) (duration c))
              (beat_time - (kill_time c - clamp raw (duration c)))] |}.

(** A subclip [p] was planned for clip [c] at index [i + k] of a run started
    at index [i] in state [st]. *)
Definition planned_from (beat_drops : list Q) (i : nat) (l : list clip_data)
    (st : loop_state) (p : subclip) : Prop :=
  exists k c beat_time stk raw,
    nth_error l k = Some c /\
    sub_index p = (i + k)%nat /\
    nth_error beat_drops (i + k) = Some beat_time /\
    for_loop beat_drops i (firstn k l) st = Ok stk /\
    raw_local_start (i + k) (kill_time c) beat_time
      (previous_kill_final_time stk) = Ok raw /\
    sub_local_start p = clamp raw (duration c) /\
    sub_local_end p = clamp (kill_time c + 1) (duration c) /\
    sub_local_start p < sub_local_end p /\
    sub_time_offset p = beat_time - (kill_time c - sub_local_start p).

(** The preconditions of the spec on one clip. *)
Definition well_formed (c : clip_data) : Prop :=
  0 < duration c /\ 0 <= kill_time c /\ kill_time c <= duration c.

(** The state at index [k] remembers the beat drop of the subclip placed
    last: every placed subclip was cut from a clip before [k], the last one
    from the clip of largest index, and the state is undefined exactly while
    nothing has been placed. *)
Definition remembers_last_placed (beat_drops : list Q) (k : nat)
    (st : loop_state) : Prop :=
  (forall q, In q (placed_clips st) -> (sub_index q < k)%nat) /\
  match previous_kill_final_time st with
  | None => placed_clips st = []
  | Some t =>
      exists p earlier,
        placed_clips st = earlier ++ [p] /\
        (forall q, In q earlier -> (sub_index q < sub_index p)%nat) /\
        nth_error beat_drops (sub_index p) = Some t
  end.

(** Clip [i] is skipped by the test [local_start >= local_end] of line 78. *)
Definition skipped (beat_drops : list Q) (clips_info : list clip_data)
    (i : nat) : Prop :=
  exists st c beat_time raw,
    state_before beat_drops clips_info i = Ok st /\
    nth_error clips_info i = Some c /\
    nth_error beat_drops i = Some beat_time /\
    raw_local_start i (kill_time c) beat_time (previous_kill_final_time st)
      = Ok raw /\
    clamp (kill_time c + 1) (duration c) <= clamp raw (duration c).

(** Two subclips that agree up to the representation of the rationals. *)
Definition same_subclip (p q : subclip) : Prop :=
  sub_index p = sub_index q /\
  sub_local_start p == sub_local_start q /\
  sub_local_end p == sub_local_end q /\
  sub_time_offset p == sub_time_offset q.

(** Every subclip of the list is related by [R] to every subclip after it. *)
Definition in_order (R : subclip -> subclip -> Prop) (l : list subclip)
    : Prop :=
  forall before p between q after,
    l = before ++ p :: between ++ q :: after -> R p q.

(** The placed subclips lie one after the other, in the order of their clips,
    and none ends more than one time unit after the beat drop the state
    remembers. *)
Definition timeline_laid_out (k : nat) (st : loop_state) : Prop :=
  in_order (fun p q => (sub_index p < sub_index q)%nat /\
                       sub_end p <= sub_time_offset q) (placed_clips st) /\
  (forall p, In p (placed_clips st) -> (sub_index p < k)%nat) /\
  match previous_kill_final_time st with
  | None => placed_clips st = []
  | Some t => forall p, In p (placed_clips st) -> sub_end p <= t + 1
  end.

(** Consecutive beat drops are at least one time unit apart. *)
Definition spaced_beats (beat_drops : list Q) : Prop :=
  forall i a b,
    nth_error beat_drops i = Some a ->
    nth_error beat_drops (S i) = Some b ->
    a + 1 <= b.

(** The kill of the clip happens strictly inside it. *)
Definition kill_inside (c : clip_data) : Prop :=
  0 <= kill_time c /\ kill_time c < duration c.

(** The number of occurrences of a character in a string. *)
Fixpoint count_char (c : ascii) (s : string) : nat :=
  match s with
  | EmptyString => 0%nat
  | String c' rest =>
      ((if Ascii.eqb c' c then 1 else 0) + count_char c rest)%nat
  end.

(** Every character of the string is a digit. *)
Fixpoint all_digits (s : string) : bool :=
  match s with
  | EmptyString => true
  | String c rest => andb (is_digit c) (all_digits rest)
  end.

(** The string does not begin with a digit. *)
Definition no_leading_digit (s : string) : bool :=
  match s with
  | EmptyString => true
  | String c _ => negb (is_digit c)
  end.

(** Two values of [extract_number] are equal: neither is below the other. *)
Definition key_eqb (a b : sort_key) : bool :=
  andb (negb (key_ltb a b)) (negb (key_ltb b a)).

(** [a <= b] between the values of [extract_number], as [not (b < a)]. *)
Definition key_le (a b : sort_key) : Prop := key_ltb b a = false.

(** ** Inputs used as instances *)

(** The inputs of the second scenario of the spec, used to instantiate the
    theorems below. *)
Definition scenario_clips : list clip_data := [mk_clip 20 13; mk_clip 15 8].
Definition scenario_beats : list Q := [8; 10.5].

(** The subclip the loop places for the second clip of that scenario, with
    the rationals as the loop's arithmetic leaves them. *)
Definition scenario_second : subclip :=
  Eval vm_compute in
    mk_subclip 1 (clamp (8 - (10.5 - (8 + 1))) 15) (clamp (8 + 1) 15)
      (10.5 - (8 - clamp (8 - (10.5 - (8 + 1))) 15)).

(** The end of the second subclip on the final timeline, 11.5. *)
Definition scenario_video_end : Q := Eval vm_compute in sub_end scenario_second.

(** A conversion of the text inputs that knows the numbers of the scenario. *)
Definition scenario_float (x : string) : option Q :=
  if String.eqb x "13" then Some 13
  else if String.eqb x "8" then Some 8
  else if String.eqb x "10.5" then Some 10.5
  else None.

(** An input in which the clip of index 1 is skipped: it lasts half a second
    and the raw start lands past its end. *)
Definition skip_clips : list clip_data :=
  [mk_clip 20 13; mk_clip 0.5 0; mk_clip 15 8].
Definition skip_beats : list Q := [8; 8.2; 10].







(** ** Python built-ins: basic facts *)

Lemma Qle_bool_cases (a b : Q) :
  (Qle_bool a b = true /\ a <= b) \/ (Qle_bool a b = false /\ b < a).
Proof.
  destruct (Qle_bool a b) eqn:E.
  - left. split; [reflexivity | now apply Qle_bool_iff].
  - right. split; [reflexivity |].
    apply Qnot_le_lt. intro H. apply Qle_bool_iff in H. congruence.
Qed.

Ltac case_le a b :=
  let E := fresh "E" in
  let H := fresh "H" in
  destruct (Qle_bool_cases a b) as [[E H] | [E H]]; rewrite ?E in *.

Lemma py_max_ge_l (a b : Q) : a <= py_max a b.
Proof. unfold py_max. case_le b a; lra. Qed.

Lemma py_max_ge_r (a b : Q) : b <= py_max a b.
Proof. unfold py_max. case_le b a; lra. Qed.

Lemma py_max_choice (a b : Q) : py_max a b = a \/ py_max a b = b.
Proof. unfold py_max. destruct (Qle_bool b a); auto. Qed.

Lemma py_min_le_l (a b : Q) : py_min a b <= a.
Proof. unfold py_min. case_le a b; lra. Qed.

Lemma py_min_le_r (a b : Q) : py_min a b <= b.
Proof. unfold py_min. case_le a b; lra. Qed.

Lemma py_min_glb (a b c : Q) : c <= a -> c <= b -> c <= py_min a b.
Proof. unfold py_min. intros. destruct (Qle_bool a b); assumption. Qed.

Lemma py_ge_true (a b : Q) : py_ge a b = true -> b <= a.
Proof. unfold py_ge. apply Qle_bool_iff. Qed.

Lemma py_ge_false (a b : Q) : py_ge a b = false -> a < b.
Proof. unfold py_ge. case_le b a; [discriminate | auto]. Qed.

(** ** Clamping *)

Lemma clamp_le_duration (t d : Q) : clamp t d <= d.
Proof. apply py_min_le_r. Qed.

Lemma clamp_nonneg (t d : Q) : 0 <= d -> 0 <= clamp t d.
Proof. intro H. apply py_min_glb; [apply py_max_ge_l | exact H]. Qed.

Lemma clamp_negative_duration (t d : Q) : d < 0 -> clamp t d = d.
Proof.
  intro H. unfold clamp, py_min.
  pose proof (py_max_ge_l 0 t).
  case_le (py_max 0 t) d; [lra | reflexivity].
Qed.


Lemma clamp_zero (d : Q) : 0 < d -> clamp 0 d = 0.
Proof.
  intro H. unfold clamp, py_min, py_max.
  case_le 0 0; [| lra]. case_le 0 d; [reflexivity | lra].
Qed.

(** A positive local end survives the clamp against a positive duration. *)
Lemma clamp_pos (t d : Q) : 0 < t -> 0 < d -> 0 < clamp t d.
Proof.
  intros Ht Hd. unfold clamp, py_min, py_max.
  case_le t 0; [lra |]. case_le t d; lra.
Qed.

(** ** One iteration *)

Lemma loop_body_iteration beat_drops i c st st' :
  loop_body beat_drops i c st = Ok st' -> iteration beat_drops i c st st'.
Proof.
  unfold loop_body, py_index.
  destruct (nth_error beat_drops i) as [beat_time |] eqn:Hbeat;
    [| discriminate].
  cbn [bind].
  destruct (raw_local_start i (kill_time c) beat_time
              (previous_kill_final_time st)) as [raw | e] eqn:Hraw;
    [| discriminate].
  cbn [bind].
  destruct (py_ge (clamp raw (duration c))
              (clamp (kill_time c + 1) (duration c))) eqn:Hge;
    intro H; injection H as <-.
  - eapply iter_skip; eauto using py_ge_true.
  - eapply iter_place; eauto using py_ge_false.
Qed.

Lemma iteration_loop_body beat_drops i c st st' :
  iteration beat_drops i c st st' -> loop_body beat_drops i c st = Ok st'.
Proof.
  intros [beat_time raw Hbeat Hraw Hle | beat_time raw Hbeat Hraw Hlt];
    unfold loop_body, py_index; rewrite Hbeat; cbn [bind];
    rewrite Hraw; cbn [bind]; unfold py_ge.
  - apply Qle_bool_iff in Hle. now rewrite Hle.
  - case_le (clamp (kill_time c + 1) (duration c)) (clamp raw (duration c));
      [lra | reflexivity].
Qed.

(** ** The loop over a list of clips *)

Lemma for_loop_app beat_drops l1 : forall l2 i st,
  for_loop beat_drops i (l1 ++ l2) st =
  (st' <- for_loop beat_drops i l1 st ;;
   for_loop beat_drops (i + length l1) l2 st').
Proof.
  induction l1 as [| c l1 IH]; intros l2 i st; cbn [for_loop app length bind].
  - now rewrite Nat.add_0_r.
  - destruct (loop_body beat_drops i c st) as [st1 | e]; cbn [bind];
      [| reflexivity].
    rewrite IH. now rewrite Nat.add_succ_r.
Qed.

Lemma for_loop_origin beat_drops l : forall i st st',
  for_loop beat_drops i l st = Ok st' ->
  forall p, In p (placed_clips st') ->
    In p (placed_clips st) \/ planned_from beat_drops i l st p.
Proof.
  induction l as [| c l IH]; intros i st st' Hrun p Hin; cbn [for_loop] in Hrun.
  - injection Hrun as <-. now left.
  - destruct (loop_body beat_drops i c st) as [st1 | e] eqn:Hbody;
      cbn [bind] in Hrun; [| discriminate].
    destruct (IH _ _ _ Hrun p Hin) as [Hin1 | Hlater].
    + apply loop_body_iteration in Hbody.
      destruct Hbody as [beat_time raw Hbeat Hraw Hle
                        | beat_time raw Hbeat Hraw Hlt].
      * now left.
      * cbn [placed_clips] in Hin1. apply in_app_or in Hin1.
        destruct Hin1 as [Hold | [<- | []]]; [now left | right].
        exists 0%nat, c, beat_time, st, raw.
        rewrite Nat.add_0_r. cbn.
        repeat split; auto.
    + right.
      destruct Hlater as (k & c' & beat_time & stk & raw & Hc & Hidx & Hbeat
                          & Hpre & Hraw & Hrest).
      exists (S k), c', beat_time, stk, raw.
      rewrite Nat.add_succ_r.
      cbn [nth_error firstn for_loop]. rewrite Hbody. cbn [bind].
      repeat split; try tauto; auto.
Qed.

(** Every subclip of the final list comes from an iteration of the loop. *)
Lemma plan_loop_origin beat_drops clips_info st p :
  plan_loop beat_drops clips_info = Ok st ->
  In p (placed_clips st) ->
  exists c beat_time stk raw,
    nth_error clips_info (sub_index p) = Some c /\
    nth_error beat_drops (sub_index p) = Some beat_time /\
    state_before beat_drops clips_info (sub_index p) = Ok stk /\
    raw_local_start (sub_index p) (kill_time c) beat_time
      (previous_kill_final_time stk) = Ok raw /\
    sub_local_start p = clamp raw (duration c) /\
    sub_local_end p = clamp (kill_time c + 1) (duration c) /\
    sub_local_start p < sub_local_end p /\
    sub_time_offset p = beat_time - (kill_time c - sub_local_start p).
Proof.
  intros Hrun Hin.
  destruct (for_loop_origin _ _ _ _ _ Hrun p Hin) as [[] | Hp].
  destruct Hp as (k & c & beat_time & stk & raw & Hc & Hidx & Hbeat
                  & Hpre & Hraw & Hrest).
  cbn in Hidx. subst k.
  exists c, beat_time, stk, raw. unfold state_before, plan_loop. tauto.
Qed.

Lemma generate_montage_ok audio clips_info beat_drops placed final_duration :
  generate_montage audio clips_info beat_drops = Ok (placed, final_duration) ->
  exists st video_duration,
    plan_loop beat_drops clips_info = Ok st /\
    placed = placed_clips st /\
    composite_duration placed = Ok video_duration /\
    final_duration = py_max video_duration audio.
Proof.
  unfold generate_montage.
  destruct (plan_loop beat_drops clips_info) as [st | e]; cbn [bind];
    [| discriminate].
  destruct (composite_duration (placed_clips st)) as [v | e] eqn:Hv;
    cbn [bind]; [| discriminate].
  intro H. injection H as <- <-. now exists st, v.
Qed.

(** ** Alignment and bounds of the placed subclips *)


(** C3. Bounds invariant: whenever [generate_montage] returns, every placed
    subclip satisfies [0 <= local_start < local_end <= duration] for the
    clip it was cut from. *)
Theorem bounds_invariant audio clips_info beat_drops placed final_duration p :
  generate_montage audio clips_info beat_drops = Ok (placed, final_duration) ->
  In p placed ->
  exists c,
    nth_error clips_info (sub_index p) = Some c /\
    0 <= sub_local_start p /\
    sub_local_start p < sub_local_end p /\
    sub_local_end p <= duration c.
Proof.
  intros Hrun Hin.
  apply generate_montage_ok in Hrun.
  destruct Hrun as (st & v & Hloop & -> & _ & _).
  destruct (plan_loop_origin _ _ _ _ Hloop Hin)
    as (c & beat_time & stk & raw & Hc & _ & _ & _ & Hs & He & Hlt & _).
  exists c. split; [exact Hc |].
  assert (Hd : 0 <= duration c).
  { destruct (Qlt_le_dec (duration c) 0) as [Hneg | Hpos]; [| exact Hpos].
    rewrite Hs, He in Hlt.
    rewrite !(clamp_negative_duration _ _ Hneg) in Hlt. lra. }
  repeat split.
  - rewrite Hs. now apply clamp_nonneg.
  - exact Hlt.
  - rewrite He. apply clamp_le_duration.
Qed.

Lemma bounds_invariant_witness :
  exists c,
    nth_error scenario_clips (sub_index scenario_second) = Some c /\
    0 <= sub_local_start scenario_second /\
    sub_local_start scenario_second < sub_local_end scenario_second /\
    sub_local_end scenario_second <= duration c.
Proof.
  refine (bounds_invariant 30 scenario_clips scenario_beats
            [mk_subclip 0 0 14 (-5); scenario_second] 30 scenario_second _ _).
  - vm_compute. reflexivity.
  - right. left. reflexivity.
Defined.

(** ** The final duration *)

Lemma fold_left_py_max_upper xs : forall a x,
  In x (a :: xs) -> x <= fold_left py_max xs a.
Proof.
  induction xs as [| y xs IH]; intros a x Hin; cbn [fold_left].
  - destruct Hin as [-> | []]. lra.
  - destruct Hin as [-> | [-> | Hin]].
    + apply Qle_trans with (py_max x y); [apply py_max_ge_l |].
      apply IH. now left.
    + apply Qle_trans with (py_max a x); [apply py_max_ge_r |].
      apply IH. now left.
    + apply IH. now right.
Qed.

Lemma fold_left_py_max_in xs : forall a, In (fold_left py_max xs a) (a :: xs).
Proof.
  induction xs as [| y xs IH]; intro a; cbn [fold_left].
  - now left.
  - destruct (IH (py_max a y)) as [Heq | Hin].
    + rewrite <- Heq. destruct (py_max_choice a y) as [-> | ->].
      * now left.
      * right. now left.
    + right. now right.
Qed.

(** C7. Whenever [generate_montage] returns with at least one placed
    subclip, the final duration is the larger of the audio duration and the
    largest end [time_offset + (local_end - local_start)] of a placed
    subclip: it bounds all of them and it is one of them. *)
Theorem final_duration_is_max audio clips_info beat_drops placed final_duration :
  generate_montage audio clips_info beat_drops = Ok (placed, final_duration) ->
  placed <> [] ->
  (forall p, In p placed ->
     sub_time_offset p + (sub_local_end p - sub_local_start p)
       <= final_duration) /\
  audio <= final_duration /\
  (final_duration = audio \/
   exists p, In p placed /\
     final_duration
       = sub_time_offset p + (sub_local_end p - sub_local_start p)).
Proof.
  intros Hrun _.
  apply generate_montage_ok in Hrun.
  destruct Hrun as (st & v & _ & _ & Hv & ->).
  unfold composite_duration in Hv.
  destruct placed as [| p0 placed0] eqn:Hplaced; [discriminate |].
  rewrite <- Hplaced in *. clear Hplaced. unfold py_max_list in Hv.
  destruct (map sub_end placed) as [| e ends] eqn:Hends; [discriminate |].
  injection Hv as <-.
  split; [| split].
  - intros p Hin.
    apply Qle_trans with (fold_left py_max ends e); [| apply py_max_ge_l].
    apply fold_left_py_max_upper. rewrite <- Hends.
    change (In (sub_end p) (map sub_end placed)). now apply in_map.
  - apply py_max_ge_r.
  - destruct (py_max_choice (fold_left py_max ends e) audio) as [-> | ->];
      [right | now left].
    pose proof (fold_left_py_max_in ends e) as Hin.
    rewrite <- Hends in Hin. apply in_map_iff in Hin.
    destruct Hin as (p & Hp & Hin). exists p. split; [exact Hin |].
    rewrite <- Hp. reflexivity.
Qed.

Lemma final_duration_is_max_witness :
  (forall p, In p [mk_subclip 0 0 14 (-5); scenario_second] ->
     sub_time_offset p + (sub_local_end p - sub_local_start p)
       <= scenario_video_end) /\
  10 <= scenario_video_end /\
  (scenario_video_end = 10 \/
   exists p, In p [mk_subclip 0 0 14 (-5); scenario_second] /\
     scenario_video_end
       = sub_time_offset p + (sub_local_end p - sub_local_start p)).
Proof.
  refine (final_duration_is_max 10 scenario_clips scenario_beats
            [mk_subclip 0 0 14 (-5); scenario_second] scenario_video_end _ _).
  - vm_compute. reflexivity.
  - discriminate.
Defined.

(** ** The loop does not raise on well-formed input *)

(** The first clip of a well-formed input is always placed. *)
Lemma first_iteration beat_drops c beat_time :
  well_formed c ->
  nth_error beat_drops 0 = Some beat_time ->
  loop_body beat_drops 0 c init_state =
  Ok {| previous_kill_final_time := Some beat_time;
        placed_clips :=
          [mk_subclip 0 (clamp 0 (duration c))
             (clamp (kill_time c + 1) (duration c))
             (beat_time - (kill_time c - clamp 0 (duration c)))] |}.
Proof.
  intros (Hd & Hk & _) Hbeat.
  apply iteration_loop_body.
  apply (iter_place beat_drops 0 c init_state beat_time 0 Hbeat);
    [reflexivity |].
  rewrite (clamp_zero _ Hd). apply clamp_pos; lra.
Qed.

(** Once the state is defined, an iteration with a beat drop never raises,
    keeps the state defined and only appends to the placed subclips. *)
Lemma loop_body_defined beat_drops i c st t :
  previous_kill_final_time st = Some t ->
  (i < length beat_drops)%nat ->
  exists st' t' more,
    loop_body beat_drops i c st = Ok st' /\
    previous_kill_final_time st' = Some t' /\
    placed_clips st' = placed_clips st ++ more.
Proof.
  intros Hprev Hlen.
  destruct (nth_error beat_drops i) as [beat_time |] eqn:Hbeat;
    [| apply nth_error_None in Hbeat; lia].
  assert (Hraw : exists raw,
             raw_local_start i (kill_time c) beat_time
               (previous_kill_final_time st) = Ok raw).
  { unfold raw_local_start. rewrite Hprev.
    destruct (Nat.eqb i 0); eauto. }
  destruct Hraw as [raw Hraw].
  destruct (Qlt_le_dec (clamp raw (duration c))
              (clamp (kill_time c + 1) (duration c))) as [Hlt | Hle].
  - eexists _, beat_time, _. split; [| split].
    + apply iteration_loop_body. exact (iter_place _ _ _ _ _ _ Hbeat Hraw Hlt).
    + reflexivity.
    + reflexivity.
  - exists st, t, []. split; [| split].
    + apply iteration_loop_body. exact (iter_skip _ _ _ _ _ _ Hbeat Hraw Hle).
    + exact Hprev.
    + now rewrite app_nil_r.
Qed.

Lemma for_loop_defined beat_drops l : forall i st t,
  previous_kill_final_time st = Some t ->
  (i + length l <= length beat_drops)%nat ->
  exists st' t' more,
    for_loop beat_drops i l st = Ok st' /\
    previous_kill_final_time st' = Some t' /\
    placed_clips st' = placed_clips st ++ more.
Proof.
  induction l as [| c l IH]; intros i st t Hprev Hlen; cbn [for_loop length] in *.
  - exists st, t, []. now rewrite app_nil_r.
  - destruct (loop_body_defined beat_drops i c st t Hprev)
      as (st1 & t1 & more1 & Hbody & Hprev1 & Hplaced1); [lia |].
    rewrite Hbody. cbn [bind].
    destruct (IH (S i) st1 t1 Hprev1) as (st' & t' & more & Hrun & Hprev' & Hplaced');
      [lia |].
    exists st', t', (more1 ++ more).
    split; [exact Hrun | split; [exact Hprev' |]].
    now rewrite Hplaced', Hplaced1, app_assoc.
Qed.

(** C8. On an input that satisfies the preconditions (as many clips as beat
    drops, at least one clip, every clip with [0 < duration] and
    [0 <= kill_time <= duration]) [generate_montage] does not raise: clip 0
    is placed, and the state is defined before every later index. *)
Theorem well_formed_never_raises audio clips_info beat_drops :
  length clips_info = length beat_drops ->
  clips_info <> [] ->
  Forall well_formed clips_info ->
  exists placed final_duration,
    generate_montage audio clips_info beat_drops = Ok (placed, final_duration) /\
    (exists p rest, placed = p :: rest /\ sub_index p = 0%nat) /\
    forall i, (0 < i <= length clips_info)%nat ->
      exists st t,
        state_before beat_drops clips_info i = Ok st /\
        previous_kill_final_time st = Some t.
Proof.
  intros Hlen Hne Hwf.
  destruct clips_info as [| c rest]; [congruence |].
  destruct beat_drops as [| beat_time beats]; [discriminate |].
  cbn [length] in Hlen.
  inversion Hwf as [| ? ? Hc Hrest]; subst.
  pose proof (first_iteration (beat_time :: beats) c beat_time Hc eq_refl)
    as Hfirst.
  set (p0 := mk_subclip 0 (clamp 0 (duration c))
               (clamp (kill_time c + 1) (duration c))
               (beat_time - (kill_time c - clamp 0 (duration c)))) in *.
  set (st1 := {| previous_kill_final_time := Some beat_time;
                 placed_clips := [p0] |}) in *.
  assert (Hfrom : forall l, (1 + length l <= length (beat_time :: beats))%nat ->
            exists st t more,
              for_loop (beat_time :: beats) 0 (c :: l) init_state = Ok st /\
              previous_kill_final_time st = Some t /\
              placed_clips st = p0 :: more).
  { intros l Hl. cbn [for_loop]. rewrite Hfirst. cbn [bind].
    destruct (for_loop_defined (beat_time :: beats) l 1 st1 beat_time eq_refl Hl)
      as (st & t & more & Hrun & Hprev & Hplaced).
    exists st, t, more. auto. }
  destruct (Hfrom rest) as (st & t & more & Hrun & Hprev & Hplaced);
    [cbn [length]; lia |].
  unfold generate_montage, plan_loop. rewrite Hrun. cbn [bind].
  rewrite Hplaced. cbn [composite_duration map py_max_list bind].
  eexists _, _. split; [reflexivity |]. split.
  - exists p0, more. split; reflexivity.
  - intros i Hi. destruct i as [| i']; [lia |].
    unfold state_before, plan_loop. cbn [firstn].
    destruct (Hfrom (firstn i' rest)) as (sti & ti & _ & Hruni & Hprevi & _).
    + pose proof (firstn_le_length i' rest). cbn [length] in *. lia.
    + exists sti, ti. auto.
Qed.

Lemma well_formed_never_raises_witness :
  exists placed final_duration,
    generate_montage 30 scenario_clips scenario_beats
      = Ok (placed, final_duration) /\
    (exists p rest, placed = p :: rest /\ sub_index p = 0%nat) /\
    forall i, (0 < i <= length scenario_clips)%nat ->
      exists st t,
        state_before scenario_beats scenario_clips i = Ok st /\
        previous_kill_final_time st = Some t.
Proof.
  refine (well_formed_never_raises 30 scenario_clips scenario_beats _ _ _).
  - reflexivity.
  - discriminate.
  - repeat constructor; vm_compute; congruence.
Defined.

(** ** What the state remembers *)

Lemma remembers_weaken beat_drops k k' st :
  (k <= k')%nat ->
  remembers_last_placed beat_drops k st ->
  remembers_last_placed beat_drops k' st.
Proof.
  unfold remembers_last_placed. intros Hk [Hall Hlast].
  split; [| exact Hlast].
  intros q Hq. specialize (Hall q Hq). lia.
Qed.

Lemma loop_body_remembers beat_drops i c st st' :
  remembers_last_placed beat_drops i st ->
  loop_body beat_drops i c st = Ok st' ->
  remembers_last_placed beat_drops (S i) st'.
Proof.
  intros Hinv Hbody. apply loop_body_iteration in Hbody.
  destruct Hbody as [beat_time raw Hbeat Hraw Hle | beat_time raw Hbeat Hraw Hlt].
  - apply (remembers_weaken beat_drops i); [lia | exact Hinv].
  - destruct Hinv as [Hall _]. unfold remembers_last_placed.
    cbn [previous_kill_final_time placed_clips]. split.
    + intros q Hq. apply in_app_or in Hq.
      destruct Hq as [Hq | [<- | []]]; [specialize (Hall q Hq); lia |].
      cbn [sub_index]. lia.
    + eexists _, (placed_clips st). split; [reflexivity |].
      cbn [sub_index]. split; [exact Hall | exact Hbeat].
Qed.

Lemma for_loop_remembers beat_drops l : forall i st st',
  remembers_last_placed beat_drops i st ->
  for_loop beat_drops i l st = Ok st' ->
  remembers_last_placed beat_drops (i + length l) st'.
Proof.
  induction l as [| c l IH]; intros i st st' Hinv Hrun;
    cbn [for_loop length] in *.
  - injection Hrun as <-. now rewrite Nat.add_0_r.
  - destruct (loop_body beat_drops i c st) as [st1 | e] eqn:Hbody;
      cbn [bind] in Hrun; [| discriminate].
    rewrite Nat.add_succ_r.
    apply (IH (S i) st1 st'); [| exact Hrun].
    now apply (loop_body_remembers beat_drops i c st).
Qed.

Lemma state_before_remembers beat_drops clips_info k st :
  (k <= length clips_info)%nat ->
  state_before beat_drops clips_info k = Ok st ->
  remembers_last_placed beat_drops k st.
Proof.
  intros Hk Hrun. unfold state_before, plan_loop in Hrun.
  apply for_loop_remembers in Hrun; [| split; [intros q [] | reflexivity]].
  rewrite length_firstn, Nat.min_l in Hrun by exact Hk. exact Hrun.
Qed.

Lemma firstn_snoc (A : Type) (l : list A) : forall k x,
  nth_error l k = Some x -> firstn (S k) l = firstn k l ++ [x].
Proof.
  induction l as [| y l IH]; intros [| k] x H; cbn in *; try discriminate.
  - now injection H as ->.
  - now rewrite <- (IH k x H).
Qed.

(** The state after index [k] is the state before it, run through the
    iteration of index [k]. *)
Lemma state_after_step beat_drops clips_info k c :
  nth_error clips_info k = Some c ->
  state_after beat_drops clips_info k =
  (st <- state_before beat_drops clips_info k ;; loop_body beat_drops k c st).
Proof.
  intro Hc. unfold state_after, state_before, plan_loop.
  rewrite (firstn_snoc _ _ _ _ Hc), for_loop_app.
  assert (Hk : (k < length clips_info)%nat)
    by (apply nth_error_Some; congruence).
  rewrite length_firstn, Nat.min_l by lia. cbn [Nat.add for_loop].
  destruct (for_loop beat_drops 0 (firstn k clips_info) init_state);
    cbn [bind]; [| reflexivity].
  now destruct (loop_body beat_drops k c a).
Qed.

(** C9. When a clip [i > 0] that is not the last one is skipped, the state
    the next clip reads is the beat drop of the subclip placed last, which
    was cut from the clip [j < i] of largest index among the placed ones:
    the raw local start of clip [i + 1] is
    [kill_time - (beat_time - (beat_drops[j] + 1))]. *)
Theorem skipped_clip_next_uses_last_placed beat_drops clips_info i :
  (0 < i)%nat ->
  (S i < length clips_info)%nat ->
  skipped beat_drops clips_info i ->
  exists st j tj p earlier,
    state_before beat_drops clips_info (S i) = Ok st /\
    placed_clips st = earlier ++ [p] /\
    sub_index p = j /\
    (j < i)%nat /\
    (forall q, In q earlier -> (sub_index q < j)%nat) /\
    nth_error beat_drops j = Some tj /\
    previous_kill_final_time st = Some tj /\
    forall c beat_time,
      nth_error clips_info (S i) = Some c ->
      nth_error beat_drops (S i) = Some beat_time ->
      raw_local_start (S i) (kill_time c) beat_time
        (previous_kill_final_time st)
      = Ok (kill_time c - (beat_time - (tj + 1))).
Proof.
  intros Hi Hlen (st & c & beat_time & raw & Hpre & Hc & Hbeat & Hraw & Hle).
  assert (Hinv : remembers_last_placed beat_drops i st)
    by (apply (state_before_remembers _ clips_info); [lia | exact Hpre]).
  assert (Hnext : state_before beat_drops clips_info (S i) = Ok st).
  { change (state_after beat_drops clips_info i = Ok st).
    rewrite (state_after_step _ _ _ _ Hc), Hpre. cbn [bind].
    apply iteration_loop_body.
    exact (iter_skip _ _ _ _ _ _ Hbeat Hraw Hle). }
  destruct Hinv as [Hall Hlast].
  destruct (previous_kill_final_time st) as [tj |] eqn:Hprev.
  - destruct Hlast as (p & earlier & Hp & Hearlier & Htj).
    exists st, (sub_index p), tj, p, earlier.
    rewrite Hprev. repeat split; auto.
    apply Hall. rewrite Hp. apply in_or_app. right. now left.
  - unfold raw_local_start in Hraw.
    destruct i as [| i']; [lia | discriminate].
Qed.

Lemma skip_clips_skipped : skipped skip_beats skip_clips 1.
Proof.
  exists (mk_state (Some 8) [mk_subclip 0 0 14 (-5)]), (mk_clip 0.5 0), 8.2,
    (0 - (8.2 - (8 + 1))).
  repeat split; try reflexivity. vm_compute. discriminate.
Qed.

Lemma skipped_clip_next_uses_last_placed_witness :
  exists st j tj p earlier,
    state_before skip_beats skip_clips 2 = Ok st /\
    placed_clips st = earlier ++ [p] /\
    sub_index p = j /\
    (j < 1)%nat /\
    (forall q, In q earlier -> (sub_index q < j)%nat) /\
    nth_error skip_beats j = Some tj /\
    previous_kill_final_time st = Some tj /\
    forall c beat_time,
      nth_error skip_clips 2 = Some c ->
      nth_error skip_beats 2 = Some beat_time ->
      raw_local_start 2 (kill_time c) beat_time (previous_kill_final_time st)
      = Ok (kill_time c - (beat_time - (tj + 1))).
Proof.
  refine (skipped_clip_next_uses_last_placed skip_beats skip_clips 1 _ _ _).
  - lia.
  - cbn. lia.
  - exact skip_clips_skipped.
Defined.

(** C2. The state after a skipped clip is not the beat drop of that clip:
    on [skip_clips] the clip of index 1 is skipped, its beat drop is 8.2, and
    the state after it is still 8, the beat drop of clip 0; the clip of
    index 2 then starts from 8 + 1 and not from 8.2 + 1. *)
Theorem skipped_clip_does_not_advance_state :
  skipped skip_beats skip_clips 1 /\
  nth_error skip_beats 1 = Some 8.2 /\
  (exists st,
     state_after skip_beats skip_clips 1 = Ok st /\
     previous_kill_final_time st = Some 8) /\
  ~ 8 == 8.2 /\
  (exists st,
     plan_loop skip_beats skip_clips = Ok st /\
     map sub_index (placed_clips st) = [0%nat; 2%nat] /\
     exists p, nth_error (placed_clips st) 1 = Some p /\
       sub_local_start p == 8 - (10 - (8 + 1)) /\
       ~ sub_local_start p == 8 - (10 - (8.2 + 1))).
Proof.
  split; [exact skip_clips_skipped |].
  split; [reflexivity |].
  split; [eexists; split; vm_compute; reflexivity |].
  split; [vm_compute; discriminate |].
  eexists. split; [vm_compute; reflexivity |].
  split; [reflexivity |].
  eexists. split; [reflexivity |].
  split; vm_compute; discriminate || reflexivity.
Qed.

(** ** Lengths of the two lists *)

(** The loop raises nothing but the two exceptions of its body. *)
Lemma for_loop_raises beat_drops l : forall i st e,
  for_loop beat_drops i l st = Raise e -> e = IndexError \/ e = TypeError.
Proof.
  induction l as [| c l IH]; intros i st e Hrun; cbn [for_loop] in Hrun;
    [discriminate |].
  destruct (loop_body beat_drops i c st) as [st1 | e1] eqn:Hbody;
    cbn [bind] in Hrun.
  - exact (IH _ _ _ Hrun).
  - injection Hrun as <-. revert Hbody. unfold loop_body, py_index.
    destruct (nth_error beat_drops i) as [beat_time |]; cbn [bind].
    + unfold raw_local_start.
      destruct (Nat.eqb i 0); cbn [bind].
      * destruct (py_ge _ _); discriminate.
      * destruct (previous_kill_final_time st); cbn [bind].
        -- destruct (py_ge _ _); discriminate.
        -- intro H. injection H as <-. now right.
    + intro H. injection H as <-. now left.
Qed.

(** A run that returns found a beat drop for every clip. *)
Lemma for_loop_ok_length beat_drops l : forall i st st',
  for_loop beat_drops i l st = Ok st' ->
  l = [] \/ (i + length l <= length beat_drops)%nat.
Proof.
  induction l as [| c l IH]; intros i st st' Hrun; [now left | right].
  cbn [for_loop] in Hrun.
  destruct (loop_body beat_drops i c st) as [st1 | e] eqn:Hbody;
    cbn [bind] in Hrun; [| discriminate].
  apply loop_body_iteration in Hbody.
  assert (Hi : (i < length beat_drops)%nat).
  { apply nth_error_Some. destruct Hbody; congruence. }
  destruct (IH _ _ _ Hrun) as [-> | Hlen]; cbn [length]; lia.
Qed.

(** Beat drops beyond the last clip are never read. *)
Lemma for_loop_extra_beats beat_drops extra l : forall i st,
  (i + length l <= length beat_drops)%nat ->
  for_loop (beat_drops ++ extra) i l st = for_loop beat_drops i l st.
Proof.
  induction l as [| c l IH]; intros i st Hlen; cbn [for_loop length] in *;
    [reflexivity |].
  assert (Hbody : loop_body (beat_drops ++ extra) i c st
                  = loop_body beat_drops i c st).
  { unfold loop_body, py_index. rewrite nth_error_app1 by lia. reflexivity. }
  rewrite Hbody.
  destruct (loop_body beat_drops i c st) as [st1 | e]; cbn [bind];
    [| reflexivity].
  apply IH. lia.
Qed.

(** C4, as the code has it. [generate_montage] has no validation of its own:
    with fewer beat drops than clips its loop raises an [IndexError] or a
    [TypeError], beat drops beyond the number of clips are ignored, and with
    no clip the loop returns the empty state. The length and emptiness checks
    are those of [main], which warns and does not call [generate_montage]
    when no clip was uploaded or when the number of kill times or of beat
    drops differs from the number of clips, and calls it otherwise. *)
Theorem validation_is_in_main :
  (forall audio clips_uploaded kill_times beat_drops,
     clips_uploaded = [] \/
     length kill_times <> length clips_uploaded \/
     length beat_drops <> length clips_uploaded ->
     exists w, main (Some audio) clips_uploaded kill_times beat_drops
               = Warned w) /\
  (forall audio clips_uploaded kill_times beat_drops,
     clips_uploaded <> [] ->
     length kill_times = length clips_uploaded ->
     length beat_drops = length clips_uploaded ->
     main (Some audio) clips_uploaded kill_times beat_drops =
     match generate_montage audio
             (build_clips_info clips_uploaded kill_times) beat_drops with
     | Ok (placed, final_duration) => Generated placed final_duration
     | Raise e => Failed e
     end) /\
  (forall beat_drops clips_info,
     (length beat_drops < length clips_info)%nat ->
     exists e, plan_loop beat_drops clips_info = Raise e /\
               (e = IndexError \/ e = TypeError)) /\
  (forall beat_drops extra clips_info,
     (length clips_info <= length beat_drops)%nat ->
     plan_loop (beat_drops ++ extra) clips_info
     = plan_loop beat_drops clips_info) /\
  (forall beat_drops, plan_loop beat_drops [] = Ok init_state).
Proof.
  repeat split.
  - intros audio clips kill_times beat_drops H. unfold main.
    destruct clips as [| c clips]; [now exists NoClips |].
    destruct (Nat.eqb_spec (length kill_times) (length (c :: clips)))
      as [Hk | Hk]; cbn [negb]; [| now exists KillTimesMismatch].
    destruct (Nat.eqb_spec (length beat_drops) (length (c :: clips)))
      as [Hb | Hb]; cbn [negb]; [| now exists BeatDropsMismatch].
    destruct H as [H | [H | H]]; [discriminate | contradiction | contradiction].
  - intros audio clips kill_times beat_drops Hne Hk Hb. unfold main.
    destruct clips as [| c clips]; [congruence |].
    rewrite Hk, Hb, !Nat.eqb_refl. reflexivity.
  - intros beat_drops clips Hlen. unfold plan_loop.
    destruct (for_loop beat_drops 0 clips init_state) as [st | e] eqn:Hrun.
    + apply for_loop_ok_length in Hrun.
      destruct Hrun as [-> | Hle]; cbn [length] in *; lia.
    + exists e. split; [reflexivity |]. exact (for_loop_raises _ _ _ _ _ Hrun).
  - intros beat_drops extra clips Hlen. unfold plan_loop.
    apply for_loop_extra_beats. lia.
Qed.

Lemma validation_is_in_main_witness :
  (exists w, main (Some 30) [20; 15] [13; 8] [8; 10.5; 13] = Warned w) /\
  (exists e, plan_loop [8] scenario_clips = Raise e /\
             (e = IndexError \/ e = TypeError)).
Proof.
  split.
  - refine (proj1 validation_is_in_main 30 [20; 15] [13; 8] [8; 10.5; 13] _).
    right. right. cbn. lia.
  - refine (proj1 (proj2 (proj2 validation_is_in_main)) [8] scenario_clips _).
    cbn. lia.
Defined.

(** C4, as the spec has it, fails: [generate_montage] is given one clip and
    two beat drops, and returns a plan. *)
Lemma length_mismatch_is_planned :
  length [mk_clip 20 13] <> length [8; 10.5] /\
  generate_montage 30 [mk_clip 20 13] [8; 10.5]
  = Ok ([mk_subclip 0 0 14 (-5)], 30).
Proof.
  split; [cbn; lia | vm_compute; reflexivity].
Qed.

(** ** The scenarios of the spec *)

(** C6. On the clips [(20, 13); (15, 8)] and the beat drops [8; 10.5],
    whatever the audio duration, [generate_montage] returns exactly two
    subclips: clip 0 from 0 to 14 at offset -5, and clip 1 from 6.5 to 9 at
    offset 9. *)
Theorem scenario_two_clips audio :
  exists placed final_duration,
    generate_montage audio [mk_clip 20 13; mk_clip 15 8] [8; 10.5]
      = Ok (placed, final_duration) /\
    Forall2 same_subclip placed
      [mk_subclip 0 0 14 (-5); mk_subclip 1 6.5 9 9].
Proof.
  eexists _, _. split.
  - unfold generate_montage.
    replace (plan_loop [8; 10.5] [mk_clip 20 13; mk_clip 15 8])
      with (Ok (mk_state (Some 10.5) [mk_subclip 0 0 14 (-5); scenario_second]))
      by (vm_compute; reflexivity).
    cbn [bind placed_clips].
    replace (composite_duration [mk_subclip 0 0 14 (-5); scenario_second])
      with (Ok scenario_video_end) by (vm_compute; reflexivity).
    cbn [bind]. reflexivity.
  - repeat constructor; vm_compute; reflexivity.
Qed.

(** C10. There is a well-formed input for which a placed subclip starts, in
    local time, after the kill of its clip: its offset on the final timeline
    is then past its beat drop, and the alignment equation holds all the
    same. *)
Theorem kill_before_window_exists :
  exists audio clips_info beat_drops placed final_duration p c beat_time,
    length clips_info = length beat_drops /\
    clips_info <> [] /\
    Forall well_formed clips_info /\
    generate_montage audio clips_info beat_drops = Ok (placed, final_duration) /\
    In p placed /\
    nth_error clips_info (sub_index p) = Some c /\
    nth_error beat_drops (sub_index p) = Some beat_time /\
    kill_time c < sub_local_start p /\
    beat_time < sub_time_offset p /\
    sub_time_offset p + (kill_time c - sub_local_start p) == beat_time.
Proof.
  exists 30, [mk_clip 20 13; mk_clip 10 2], [8; 8.5].
  eexists _, _, _, (mk_clip 10 2), 8.5.
  split; [reflexivity |].
  split; [discriminate |].
  split; [repeat constructor; vm_compute; congruence |].
  split; [reflexivity |].
  split; [right; left; reflexivity |].
  repeat split; vm_compute; reflexivity.
Qed.

(** ** Further properties of the planning loop *)

(** The window of a placed subclip: the clip has a non-negative duration,
    the local start was not clamped down, and the local end is at most one
    time unit after the kill. *)
Lemma placed_window raw kill d :
  clamp raw d < clamp (kill + 1) d ->
  0 <= d /\
  0 <= clamp raw d /\
  raw <= clamp raw d /\
  (0 <= raw -> clamp raw d == raw) /\
  (raw <= 0 -> clamp raw d == 0) /\
  clamp (kill + 1) d <= kill + 1 /\
  clamp (kill + 1) d <= d /\
  (kill + 1 <= d -> clamp (kill + 1) d == kill + 1).
Proof.
  unfold clamp, py_min, py_max. intro H.
  case_le raw 0; case_le (kill + 1) 0;
    try case_le 0 d; try case_le raw d; try case_le (kill + 1) d;
    repeat split; intros; lra.
Qed.

Lemma in_order_nil R : in_order R [].
Proof. intros [| x before] p between q after H; discriminate. Qed.

Lemma in_order_snoc R l x :
  in_order R l -> (forall p, In p l -> R p x) -> in_order R (l ++ [x]).
Proof.
  intros Hl Hx before p between q after Heq.
  destruct (exists_last (l := q :: after)) as (after' & y & Hlast);
    [discriminate |].
  rewrite Hlast in Heq.
  assert (Hassoc : before ++ p :: between ++ after' ++ [y]
                   = (before ++ p :: between ++ after') ++ [y]).
  { rewrite <- app_assoc. cbn [app]. now rewrite <- app_assoc. }
  rewrite Hassoc in Heq. apply app_inj_tail in Heq.
  destruct Heq as [Hl_eq Hx_eq].
  destruct after' as [| q' after'']; cbn [app] in Hlast;
    injection Hlast as Hq Hafter.
  - rewrite Hq, <- Hx_eq. apply Hx. rewrite Hl_eq.
    apply in_or_app. right. now left.
  - rewrite Hq. exact (Hl before p between q' after'' Hl_eq).
Qed.

Lemma in_order_weaken (R R' : subclip -> subclip -> Prop) l :
  (forall p q, R p q -> R' p q) -> in_order R l -> in_order R' l.
Proof. intros HR Hl before p between q after Heq. eapply HR, Hl, Heq. Qed.

Lemma loop_body_laid_out beat_drops i c st st' :
  timeline_laid_out i st ->
  loop_body beat_drops i c st = Ok st' ->
  timeline_laid_out (S i) st'.
Proof.
  intros (Hord & Hidx & Hend) Hbody. apply loop_body_iteration in Hbody.
  destruct Hbody as [beat_time raw Hbeat Hraw Hle | beat_time raw Hbeat Hraw Hlt].
  - split; [exact Hord | split; [| exact Hend]].
    intros p Hp. specialize (Hidx p Hp). lia.
  - destruct (placed_window _ _ _ Hlt)
      as (Hd & Hs0 & Hsraw & _ & _ & Hek & _ & _).
    set (pn := mk_subclip i (clamp raw (duration c))
                 (clamp (kill_time c + 1) (duration c))
                 (beat_time - (kill_time c - clamp raw (duration c)))).
    assert (Hpn : sub_end pn <= beat_time + 1)
      by (unfold sub_end, pn; cbn; lra).
    assert (Hlen : sub_time_offset pn <= sub_end pn)
      by (unfold sub_end, pn; cbn; lra).
    assert (Hbefore : forall p, In p (placed_clips st) ->
              (sub_index p < i)%nat /\ sub_end p <= sub_time_offset pn).
    { intros p Hp. split; [exact (Hidx p Hp) |].
      unfold raw_local_start in Hraw.
      destruct i as [| i']; [specialize (Hidx p Hp); lia |].
      cbn [Nat.eqb] in Hraw.
      destruct (previous_kill_final_time st) as [t |]; [| discriminate].
      injection Hraw as <-. specialize (Hend p Hp).
      unfold pn; cbn [sub_time_offset]. lra. }
    unfold timeline_laid_out. cbn [previous_kill_final_time placed_clips].
    fold pn. split; [| split].
    + apply in_order_snoc; [exact Hord |]. intros p Hp.
      destruct (Hbefore p Hp). split; [exact H | exact H0].
    + intros p Hp. apply in_app_or in Hp.
      destruct Hp as [Hp | [<- | []]]; [specialize (Hidx p Hp); lia |].
      cbn. lia.
    + intros p Hp. apply in_app_or in Hp.
      destruct Hp as [Hp | [<- | []]]; [| exact Hpn].
      destruct (Hbefore p Hp). lra.
Qed.

Lemma for_loop_laid_out beat_drops l : forall i st st',
  timeline_laid_out i st ->
  for_loop beat_drops i l st = Ok st' ->
  timeline_laid_out (i + length l) st'.
Proof.
  induction l as [| c l IH]; intros i st st' Hinv Hrun;
    cbn [for_loop length] in *.
  - injection Hrun as <-. now rewrite Nat.add_0_r.
  - destruct (loop_body beat_drops i c st) as [st1 | e] eqn:Hbody;
      cbn [bind] in Hrun; [| discriminate].
    rewrite Nat.add_succ_r.
    apply (IH (S i) st1 st'); [| exact Hrun].
    now apply (loop_body_laid_out beat_drops i c st).
Qed.

Lemma plan_loop_laid_out beat_drops clips_info st :
  plan_loop beat_drops clips_info = Ok st ->
  timeline_laid_out (length clips_info) st.
Proof.
  intro Hrun. apply (for_loop_laid_out beat_drops clips_info 0 init_state);
    [| exact Hrun].
  split; [apply in_order_nil | split; [intros p [] | reflexivity]].
Qed.

(** X2. The placed subclips are listed in the order of their clips, with
    strictly increasing clip indices below the number of clips: no clip is
    placed twice and there are at most as many subclips as clips. *)
Theorem placed_in_clip_order beat_drops clips_info st :
  plan_loop beat_drops clips_info = Ok st ->
  in_order (fun p q => (sub_index p < sub_index q)%nat) (placed_clips st) /\
  (forall p, In p (placed_clips st) ->
     (sub_index p < length clips_info)%nat) /\
  (length (placed_clips st) <= length clips_info)%nat.
Proof.
  intro Hrun. destruct (plan_loop_laid_out _ _ _ Hrun) as (Hord & Hidx & _).
  assert (Hinc : in_order (fun p q => (sub_index p < sub_index q)%nat)
                   (placed_clips st))
    by (revert Hord; apply in_order_weaken; intros p q [H _]; exact H).
  split; [exact Hinc | split; [exact Hidx |]].
  clear Hrun Hord. revert Hinc Hidx.
  generalize (length clips_info) as n. generalize (placed_clips st) as l.
  induction l as [| x l IH] using rev_ind; intros n Hinc Hidx; [cbn; lia |].
  rewrite length_app. cbn [length].
  assert (Hx : (sub_index x < n)%nat)
    by (apply Hidx, in_or_app; right; now left).
  assert (Hl : (length l <= sub_index x)%nat).
  { apply IH.
    - intros before p between q after Heq.
      apply (Hinc before p between q (after ++ [x])).
      rewrite Heq. rewrite <- !app_assoc. cbn. rewrite <- app_assoc.
      reflexivity.
    - intros p Hp. apply in_split in Hp. destruct Hp as (l1 & l2 & ->).
      apply (Hinc l1 p l2 x []). rewrite <- app_assoc. reflexivity. }
  lia.
Qed.

Lemma placed_in_clip_order_witness :
  let st := mk_state (Some 10.5) [mk_subclip 0 0 14 (-5); scenario_second] in
  in_order (fun p q => (sub_index p < sub_index q)%nat) (placed_clips st) /\
  (forall p, In p (placed_clips st) ->
     (sub_index p < length scenario_clips)%nat) /\
  (length (placed_clips st) <= length scenario_clips)%nat.
Proof.
  refine (placed_in_clip_order scenario_beats scenario_clips _ _).
  vm_compute. reflexivity.
Defined.

(** X3. A placed subclip is cut at most one time unit after the kill, and
    exactly there when the clip lasts at least that long. *)
Theorem placed_cut_one_after_kill beat_drops clips_info st p :
  plan_loop beat_drops clips_info = Ok st ->
  In p (placed_clips st) ->
  exists c,
    nth_error clips_info (sub_index p) = Some c /\
    sub_local_end p <= kill_time c + 1 /\
    (kill_time c + 1 <= duration c -> sub_local_end p == kill_time c + 1).
Proof.
  intros Hrun Hin.
  destruct (plan_loop_origin _ _ _ _ Hrun Hin)
    as (c & beat_time & stk & raw & Hc & _ & _ & _ & Hs & He & Hlt & _).
  exists c. split; [exact Hc |].
  rewrite Hs, He in Hlt.
  destruct (placed_window _ _ _ Hlt) as (_ & _ & _ & _ & _ & Hek & _ & Hex).
  rewrite He. split; [exact Hek | exact Hex].
Qed.

Lemma placed_cut_one_after_kill_witness :
  exists c,
    nth_error scenario_clips (sub_index scenario_second) = Some c /\
    sub_local_end scenario_second <= kill_time c + 1 /\
    (kill_time c + 1 <= duration c ->
     sub_local_end scenario_second == kill_time c + 1).
Proof.
  refine (placed_cut_one_after_kill scenario_beats scenario_clips
            (mk_state (Some 10.5) [mk_subclip 0 0 14 (-5); scenario_second])
            scenario_second _ _).
  - vm_compute. reflexivity.
  - right. left. reflexivity.
Defined.

(** X4. When the first clip is placed, it is cut from its very beginning and
    starts on the final timeline at its beat drop minus its kill time. *)
Theorem first_clip_from_its_start beat_drops clips_info st p :
  plan_loop beat_drops clips_info = Ok st ->
  In p (placed_clips st) ->
  sub_index p = 0%nat ->
  exists c beat_time,
    nth_error clips_info 0 = Some c /\
    nth_error beat_drops 0 = Some beat_time /\
    sub_local_start p == 0 /\
    sub_time_offset p == beat_time - kill_time c.
Proof.
  intros Hrun Hin Hidx.
  destruct (plan_loop_origin _ _ _ _ Hrun Hin)
    as (c & beat_time & stk & raw & Hc & Hbeat & _ & Hraw & Hs & He & Hlt & Ho).
  rewrite Hidx in *. exists c, beat_time.
  split; [exact Hc | split; [exact Hbeat |]].
  cbn in Hraw. injection Hraw as <-.
  rewrite Hs, He in Hlt.
  destruct (placed_window _ _ _ Hlt) as (_ & _ & _ & H0 & _).
  assert (Hz : sub_local_start p == 0) by (rewrite Hs; apply H0; lra).
  split; [exact Hz |]. rewrite Ho, Hz. ring.
Qed.

Lemma first_clip_from_its_start_witness :
  exists c beat_time,
    nth_error scenario_clips 0 = Some c /\
    nth_error scenario_beats 0 = Some beat_time /\
    sub_local_start (mk_subclip 0 0 14 (-5)) == 0 /\
    sub_time_offset (mk_subclip 0 0 14 (-5)) == beat_time - kill_time c.
Proof.
  refine (first_clip_from_its_start scenario_beats scenario_clips
            (mk_state (Some 10.5) [mk_subclip 0 0 14 (-5); scenario_second])
            (mk_subclip 0 0 14 (-5)) _ _ _).
  - vm_compute. reflexivity.
  - left. reflexivity.
  - reflexivity.
Defined.

(** X5. When the raw local start of a later clip is not positive and the
    clip is placed, it is cut from its very beginning and starts on the
    final timeline at its beat drop minus its kill time. *)
Theorem later_clip_cut_from_start beat_drops clips_info st p :
  plan_loop beat_drops clips_info = Ok st ->
  In p (placed_clips st) ->
  (0 < sub_index p)%nat ->
  exists c beat_time stk prev,
    nth_error clips_info (sub_index p) = Some c /\
    nth_error beat_drops (sub_index p) = Some beat_time /\
    state_before beat_drops clips_info (sub_index p) = Ok stk /\
    previous_kill_final_time stk = Some prev /\
    (kill_time c - (beat_time - (prev + 1)) <= 0 ->
     sub_local_start p == 0 /\
     sub_time_offset p == beat_time - kill_time c).
Proof.
  intros Hrun Hin Hidx.
  destruct (plan_loop_origin _ _ _ _ Hrun Hin)
    as (c & beat_time & stk & raw & Hc & Hbeat & Hpre & Hraw & Hs & He & Hlt & Ho).
  unfold raw_local_start in Hraw.
  destruct (sub_index p) as [| i'] eqn:Hi; [lia |]. cbn [Nat.eqb] in Hraw.
  destruct (previous_kill_final_time stk) as [prev |] eqn:Hprev;
    [| discriminate].
  injection Hraw as <-.
  exists c, beat_time, stk, prev.
  repeat (split; [assumption || reflexivity |]).
  intro Hneg. rewrite Hs, He in Hlt.
  destruct (placed_window _ _ _ Hlt) as (_ & _ & _ & _ & Hout0 & _).
  specialize (Hout0 Hneg). rewrite <- Hs in Hout0.
  split; [exact Hout0 |]. rewrite Ho, Hout0. ring.
Qed.

Lemma later_clip_cut_from_start_witness :
  exists c beat_time stk prev,
    nth_error [mk_clip 20 13; mk_clip 15 1]
      (sub_index (mk_subclip 1 0 2 11)) = Some c /\
    nth_error [8; 12] (sub_index (mk_subclip 1 0 2 11)) = Some beat_time /\
    state_before [8; 12] [mk_clip 20 13; mk_clip 15 1]
      (sub_index (mk_subclip 1 0 2 11)) = Ok stk /\
    previous_kill_final_time stk = Some prev /\
    (kill_time c - (beat_time - (prev + 1)) <= 0 ->
     sub_local_start (mk_subclip 1 0 2 11) == 0 /\
     sub_time_offset (mk_subclip 1 0 2 11) == beat_time - kill_time c).
Proof.
  refine (later_clip_cut_from_start [8; 12] [mk_clip 20 13; mk_clip 15 1]
            (mk_state (Some 12) [mk_subclip 0 0 14 (-5); mk_subclip 1 0 2 11])
            (mk_subclip 1 0 2 11) _ _ _).
  - vm_compute. reflexivity.
  - right. left. reflexivity.
  - cbn. lia.
Defined.

(** X7. When the first clip is skipped and a second clip follows, the loop
    raises a [TypeError] at the second clip: the state it reads was never
    set. *)
Theorem first_clip_skipped_raises beat_drops c0 c1 rest b0 b1 :
  nth_error beat_drops 0 = Some b0 ->
  nth_error beat_drops 1 = Some b1 ->
  clamp (kill_time c0 + 1) (duration c0) <= clamp 0 (duration c0) ->
  plan_loop beat_drops (c0 :: c1 :: rest) = Raise TypeError.
Proof.
  intros H0 H1 Hskip. unfold plan_loop. cbn [for_loop].
  rewrite (iteration_loop_body beat_drops 0 c0 init_state init_state
             (iter_skip _ _ _ _ b0 0 H0 eq_refl Hskip)).
  cbn [bind]. unfold loop_body, py_index. rewrite H1. reflexivity.
Qed.

Lemma first_clip_skipped_raises_witness :
  plan_loop [8; 10.5] [mk_clip 0 0; mk_clip 15 8] = Raise TypeError.
Proof.
  refine (first_clip_skipped_raises [8; 10.5] (mk_clip 0 0) (mk_clip 15 8) []
            8 10.5 _ _ _).
  - reflexivity.
  - reflexivity.
  - vm_compute. discriminate.
Defined.

(** ** Beat drops at least one time unit apart *)

(** A raw start at or before a kill that lies strictly inside the clip gives
    a window that contains the kill. *)
Lemma window_contains_kill raw kill d :
  0 <= kill -> kill < d -> raw <= kill ->
  clamp raw d <= kill /\ kill < clamp (kill + 1) d.
Proof.
  intros H0 Hd Hraw. unfold clamp, py_min, py_max.
  case_le raw 0; case_le (kill + 1) 0;
    try case_le 0 d; try case_le raw d; try case_le (kill + 1) d;
    split; lra.
Qed.

Lemma for_loop_spaced beat_drops l :
  spaced_beats beat_drops ->
  forall i st,
    Forall kill_inside l ->
    (i + length l <= length beat_drops)%nat ->
    match i with
    | O => True
    | S j => exists t, nth_error beat_drops j = Some t /\
                       previous_kill_final_time st = Some t
    end ->
    exists st' news,
      for_loop beat_drops i l st = Ok st' /\
      placed_clips st' = placed_clips st ++ news /\
      map sub_index news = seq i (length l) /\
      forall p c, In p news ->
        nth_error l (sub_index p - i) = Some c ->
        sub_local_start p <= kill_time c /\ kill_time c < sub_local_end p.
Proof.
  intro Hsp. induction l as [| c l IH]; intros i st Hkill Hlen Hprev;
    cbn [for_loop length] in *.
  - exists st, []. rewrite app_nil_r.
    split; [reflexivity | split; [reflexivity | split; [reflexivity |]]].
    intros p c [].
  - inversion Hkill as [| ? ? [Hk0 Hkd] Hrest]; subst.
    destruct (nth_error beat_drops i) as [beat_time |] eqn:Hbeat;
      [| apply nth_error_None in Hbeat; lia].
    assert (Hraw : exists raw,
               raw_local_start i (kill_time c) beat_time
                 (previous_kill_final_time st) = Ok raw /\
               raw <= kill_time c).
    { unfold raw_local_start. destruct i as [| j]; cbn [Nat.eqb].
      - exists 0. split; [reflexivity | exact Hk0].
      - destruct Hprev as (t & Ht & ->).
        pose proof (Hsp j t beat_time Ht Hbeat).
        eexists. split; [reflexivity | lra]. }
    destruct Hraw as (raw & Hraw & Hle).
    destruct (window_contains_kill raw (kill_time c) (duration c) Hk0 Hkd Hle)
      as [Hin1 Hin2].
    assert (Hlt : clamp raw (duration c)
                  < clamp (kill_time c + 1) (duration c)) by lra.
    rewrite (iteration_loop_body _ _ _ _ _
               (iter_place _ _ _ _ _ _ Hbeat Hraw Hlt)).
    cbn [bind].
    set (pn := mk_subclip i (clamp raw (duration c))
                 (clamp (kill_time c + 1) (duration c))
                 (beat_time - (kill_time c - clamp raw (duration c)))).
    set (st1 := {| previous_kill_final_time := Some beat_time;
                   placed_clips := placed_clips st ++ [pn] |}).
    destruct (IH (S i) st1 Hrest) as (st' & news & Hrun & Hplaced & Hidx & Hwin).
    + lia.
    + exists beat_time. split; [exact Hbeat | reflexivity].
    + exists st', (pn :: news). split; [exact Hrun |].
      split; [rewrite Hplaced; unfold st1; cbn [placed_clips];
              now rewrite <- app_assoc |].
      split; [cbn [map seq sub_index pn]; now rewrite Hidx |].
      intros p c' [Heq | Hp] Hc'.
      * rewrite <- Heq in *. cbn [sub_index pn] in Hc'.
        rewrite Nat.sub_diag in Hc'. cbn in Hc'. injection Hc' as <-.
        cbn. split; assumption.
      * assert (Hi : (S i <= sub_index p)%nat).
        { apply (in_map sub_index) in Hp. rewrite Hidx in Hp.
          apply in_seq in Hp. lia. }
        apply (Hwin p c' Hp).
        replace (sub_index p - i)%nat with (S (sub_index p - S i)) in Hc'
          by lia.
        exact Hc'.
Qed.

(** X6. When consecutive beat drops are at least one time unit apart and
    every kill happens strictly inside its clip, the loop does not raise
    and skips nothing: every clip is placed, in order, and the window cut
    from each clip contains its kill. *)
Theorem spaced_beats_place_every_clip beat_drops clips_info :
  (length clips_info <= length beat_drops)%nat ->
  Forall kill_inside clips_info ->
  spaced_beats beat_drops ->
  exists st,
    plan_loop beat_drops clips_info = Ok st /\
    map sub_index (placed_clips st) = seq 0 (length clips_info) /\
    forall p c, In p (placed_clips st) ->
      nth_error clips_info (sub_index p) = Some c ->
      sub_local_start p <= kill_time c /\ kill_time c < sub_local_end p.
Proof.
  intros Hlen Hkill Hsp.
  destruct (for_loop_spaced beat_drops clips_info Hsp 0 init_state Hkill Hlen I)
    as (st & news & Hrun & Hplaced & Hidx & Hwin).
  cbn [placed_clips init_state app] in Hplaced.
  exists st. split; [exact Hrun |]. rewrite Hplaced.
  split; [exact Hidx |].
  intros p c Hp Hc. apply (Hwin p c Hp). now rewrite Nat.sub_0_r.
Qed.

Lemma scenario_beats_spaced : spaced_beats scenario_beats.
Proof.
  intros [| [| i]] a b Ha Hb; cbn in Ha, Hb.
  - injection Ha as <-. injection Hb as <-. vm_compute. discriminate.
  - discriminate.
  - destruct i; discriminate.
Qed.

Lemma spaced_beats_place_every_clip_witness :
  exists st,
    plan_loop scenario_beats scenario_clips = Ok st /\
    map sub_index (placed_clips st) = seq 0 (length scenario_clips) /\
    forall p c, In p (placed_clips st) ->
      nth_error scenario_clips (sub_index p) = Some c ->
      sub_local_start p <= kill_time c /\ kill_time c < sub_local_end p.
Proof.
  refine (spaced_beats_place_every_clip scenario_beats scenario_clips _ _
            scenario_beats_spaced).
  - cbn. lia.
  - repeat constructor; vm_compute; congruence || reflexivity.
Defined.

(** ** The number in a file name *)

Lemma extract_number_unfold filename :
  extract_number filename =
  match match_clip_number filename with
  | Some n => Num n
  | None =>
      match filename with
      | EmptyString => Inf
      | String _ rest => extract_number rest
      end
  end.
Proof. destruct filename; reflexivity. Qed.

Lemma strip_literal_app literal : forall rest,
  strip_literal literal (literal ++ rest) = Some rest.
Proof.
  induction literal as [| a literal IH]; intro rest; cbn; [reflexivity |].
  now rewrite Ascii.eqb_refl.
Qed.

Lemma strip_literal_some literal : forall s rest,
  strip_literal literal s = Some rest -> s = (literal ++ rest)%string.
Proof.
  induction literal as [| a literal IH]; intros s rest H; cbn in H.
  - now injection H as ->.
  - destruct s as [| b s']; [discriminate |].
    destruct (Ascii.eqb_spec a b) as [<- | _]; [| discriminate].
    cbn. f_equal. now apply IH.
Qed.

Lemma span_digits_no_leading s :
  no_leading_digit s = true -> span_digits s = (EmptyString, s).
Proof.
  destruct s as [| c s']; cbn; [reflexivity |].
  destruct (is_digit c); [discriminate | reflexivity].
Qed.

Lemma span_digits_leading s :
  no_leading_digit s = false -> fst (span_digits s) <> EmptyString.
Proof.
  destruct s as [| c s']; cbn; [discriminate |].
  destruct (is_digit c); [| discriminate].
  destruct (span_digits s'). discriminate.
Qed.

Lemma span_digits_app digits : forall s,
  all_digits digits = true ->
  no_leading_digit s = true ->
  span_digits (digits ++ s) = (digits, s).
Proof.
  induction digits as [| c digits IH]; intros s Hd Hs; cbn in *.
  - now apply span_digits_no_leading.
  - apply andb_prop in Hd. destruct Hd as [Hc Hd].
    rewrite Hc, (IH s Hd Hs). reflexivity.
Qed.

Lemma string_of_uint_digits (u : Decimal.uint) :
  all_digits (NilEmpty.string_of_uint u) = true.
Proof. induction u; cbn; auto. Qed.

Lemma int_of_string_of_uint (u : Decimal.uint) : forall acc,
  int_of_digits_acc acc (NilEmpty.string_of_uint u) = Nat.of_uint_acc u acc.
Proof.
  induction u; intro acc;
    cbn [NilEmpty.string_of_uint int_of_digits_acc Nat.of_uint_acc];
    [reflexivity | rewrite IHu, Nat.tail_mul_spec; f_equal .. ];
    match goal with
    | |- context [digit_value ?c] =>
        let v := eval vm_compute in (digit_value c) in
        change (digit_value c) with v
    end; lia.
Qed.

Lemma str_digits i : all_digits (str i) = true.
Proof. apply string_of_uint_digits. Qed.

Lemma int_of_str i : int_of_digits (str i) = i.
Proof.
  unfold int_of_digits, str. rewrite int_of_string_of_uint.
  apply DecimalNat.Unsigned.of_to.
Qed.

Lemma str_not_empty i : str i <> EmptyString.
Proof.
  unfold str. intro H.
  assert (Hnil : Nat.to_uint i = Decimal.Nil).
  { pose proof (NilEmpty.usu (Nat.to_uint i)) as Hu. rewrite H in Hu.
    cbn in Hu. now injection Hu as <-. }
  pose proof (DecimalNat.Unsigned.to_of (Nat.to_uint i)) as Hto.
  rewrite DecimalNat.Unsigned.of_to, Hnil in Hto. discriminate.
Qed.

Lemma str_injective i j : str i = str j -> i = j.
Proof. intro H. rewrite <- (int_of_str i), <- (int_of_str j). now rewrite H. Qed.

Lemma match_clip_number_of_str i suffix :
  no_leading_digit suffix = true ->
  match_clip_number ("clip" ++ str i ++ suffix) = Some i.
Proof.
  intro Hs. unfold match_clip_number.
  rewrite (strip_literal_app "clip").
  rewrite (span_digits_app _ _ (str_digits i) Hs).
  pose proof (str_not_empty i). pose proof (int_of_str i) as Hint.
  destruct (str i); [congruence | now rewrite Hint].
Qed.

Lemma match_clip_number_first_char a s :
  a <> "c"%char -> match_clip_number (String a s) = None.
Proof.
  intro Ha. unfold match_clip_number. cbn [strip_literal].
  destruct (Ascii.eqb_spec "c" a) as [<- | _]; [congruence | reflexivity].
Qed.

(** X8. A name made of a prefix without the letter c, then [clip], the
    decimal writing of a number and a suffix that does not begin with a
    digit, has that number: [extract_number] reads back what [str] wrote. *)
Theorem extract_number_reads_number prefix i suffix :
  count_char "c" prefix = 0%nat ->
  no_leading_digit suffix = true ->
  extract_number (prefix ++ "clip" ++ str i ++ suffix) = Num i.
Proof.
  intros Hp Hs. induction prefix as [| a prefix IH]; cbn [append].
  - rewrite extract_number_unfold.
    change (String "c" (String "l" (String "i" (String "p" (str i ++ suffix)))))
      with ("clip" ++ str i ++ suffix)%string.
    now rewrite match_clip_number_of_str.
  - cbn [count_char] in Hp.
    destruct (Ascii.eqb_spec a "c") as [-> | Ha]; [discriminate |].
    rewrite extract_number_unfold, (match_clip_number_first_char _ _ Ha).
    apply IH. exact Hp.
Qed.

Lemma extract_number_reads_number_witness :
  extract_number ("my_" ++ "clip" ++ str 12 ++ ".mp4") = Num 12.
Proof.
  refine (extract_number_reads_number "my_" 12 ".mp4" _ _); reflexivity.
Defined.

Lemma match_clip_number_none s :
  match_clip_number s = None <->
  (forall rest, s = ("clip" ++ rest)%string -> no_leading_digit rest = true).
Proof.
  unfold match_clip_number. split.
  - intros H rest ->. rewrite (strip_literal_app "clip") in H.
    destruct (no_leading_digit rest) eqn:Hr; [reflexivity |].
    apply span_digits_leading in Hr.
    destruct (span_digits rest) as [[| c d] after]; cbn in Hr;
      [congruence | discriminate].
  - intro H. destruct (strip_literal "clip" s) as [rest |] eqn:Hstrip;
      [| reflexivity].
    apply strip_literal_some in Hstrip.
    rewrite (span_digits_no_leading rest (H rest Hstrip)). reflexivity.
Qed.

(** X9. [extract_number] gives [float('inf')] exactly for the names in
    which no occurrence of [clip] is directly followed by a digit. *)
Theorem extract_number_inf filename :
  extract_number filename = Inf <->
  (forall before rest,
     filename = (before ++ "clip" ++ rest)%string ->
     no_leading_digit rest = true).
Proof.
  induction filename as [| a s IH]; rewrite extract_number_unfold.
  - split; [| reflexivity].
    intros _ [| b before] rest H; discriminate.
  - destruct (match_clip_number (String a s)) as [n |] eqn:Hm.
    + split; [discriminate |]. intro H.
      assert (Hnone : match_clip_number (String a s) = None).
      { apply match_clip_number_none. intros rest Hrest.
        exact (H EmptyString rest Hrest). }
      congruence.
    + rewrite IH. split.
      * intros H [| b before] rest Heq.
        -- cbn [append] in Heq.
           exact (proj1 (match_clip_number_none _) Hm rest Heq).
        -- cbn [append] in Heq. injection Heq as _ Heq.
           exact (H before rest Heq).
      * intros H before rest Heq. apply (H (String a before) rest).
        cbn [append]. now rewrite Heq.
Qed.

(** ** The order of the uploaded clips *)

Lemma key_le_refl a : key_le a a.
Proof. destruct a; cbn; [apply Nat.ltb_irrefl | reflexivity]. Qed.

Lemma key_le_trans a b c : key_le a b -> key_le b c -> key_le a c.
Proof.
  unfold key_le. destruct a, b, c; cbn; intros H1 H2; try congruence.
  apply Nat.ltb_ge in H1, H2. apply Nat.ltb_ge. lia.
Qed.

Lemma key_le_antisym a b : key_le a b -> key_le b a -> a = b.
Proof.
  unfold key_le. destruct a, b; cbn; intros H1 H2; try congruence.
  apply Nat.ltb_ge in H1, H2. f_equal. lia.
Qed.

Lemma key_ltb_le a b : key_ltb a b = true -> key_le a b.
Proof.
  unfold key_le. destruct a, b; cbn; intro H; try congruence.
  apply Nat.ltb_lt in H. apply Nat.ltb_ge. lia.
Qed.

Section Sorting.

Context {A : Type} (key : A -> sort_key).

Lemma insert_by_perm x l : Permutation (x :: l) (insert_by key x l).
Proof.
  induction l as [| y l IH]; cbn [insert_by]; [reflexivity |].
  destruct (key_ltb (key y) (key x)); [| reflexivity].
  rewrite perm_swap. now apply perm_skip.
Qed.

Lemma py_sorted_perm l : Permutation l (py_sorted key l).
Proof.
  induction l as [| x l IH]; cbn [py_sorted fold_right]; [reflexivity |].
  rewrite <- insert_by_perm. now apply perm_skip.
Qed.

Lemma insert_by_sorted x l :
  StronglySorted (fun a b => key_le (key a) (key b)) l ->
  StronglySorted (fun a b => key_le (key a) (key b)) (insert_by key x l).
Proof.
  induction 1 as [| y l Hl IH Hy]; cbn [insert_by].
  - constructor; constructor.
  - destruct (key_ltb (key y) (key x)) eqn:Hyx.
    + constructor; [exact IH |].
      apply (Permutation_Forall (insert_by_perm x l)).
      constructor; [now apply key_ltb_le | exact Hy].
    + constructor; [now constructor |].
      constructor; [exact Hyx |].
      eapply Forall_impl; [| exact Hy].
      intros z Hz. exact (key_le_trans _ _ _ Hyx Hz).
Qed.

Lemma py_sorted_sorted l :
  StronglySorted (fun a b => key_le (key a) (key b)) (py_sorted key l).
Proof.
  induction l as [| x l IH]; cbn [py_sorted fold_right]; [constructor |].
  now apply insert_by_sorted.
Qed.

Lemma insert_by_filter (select : sort_key -> bool) x l :
  (forall a b, key_ltb a b = true -> select b = true -> select a = false) ->
  filter (fun y => select (key y)) (insert_by key x l)
  = filter (fun y => select (key y)) (x :: l).
Proof.
  intro Hsel. induction l as [| y l IH]; cbn [insert_by]; [reflexivity |].
  destruct (key_ltb (key y) (key x)) eqn:Hyx; [| reflexivity].
  cbn [filter] in *. rewrite IH.
  destruct (select (key x)) eqn:Hx; [| reflexivity].
  now rewrite (Hsel _ _ Hyx Hx).
Qed.

Lemma py_sorted_filter (select : sort_key -> bool) l :
  (forall a b, key_ltb a b = true -> select b = true -> select a = false) ->
  filter (fun y => select (key y)) (py_sorted key l)
  = filter (fun y => select (key y)) l.
Proof.
  intro Hsel. induction l as [| x l IH]; cbn [py_sorted fold_right];
    [reflexivity |].
  rewrite (insert_by_filter select x _ Hsel).
  cbn [filter]. fold (py_sorted key l). now rewrite IH.
Qed.

(** Two sorted lists with the same elements, no two of which have the same
    key, are the same list. *)
Lemma sorted_unique l1 : forall l2,
  StronglySorted (fun a b => key_le (key a) (key b)) l1 ->
  StronglySorted (fun a b => key_le (key a) (key b)) l2 ->
  Permutation l1 l2 ->
  NoDup (map key l1) ->
  l1 = l2.
Proof.
  induction l1 as [| x r1 IH]; intros l2 H1 H2 Hperm Hnd.
  - apply Permutation_nil in Hperm. now subst.
  - destruct l2 as [| y r2];
      [apply Permutation_sym, Permutation_nil in Hperm; discriminate |].
    apply StronglySorted_inv in H1. destruct H1 as [H1 Hx].
    apply StronglySorted_inv in H2. destruct H2 as [H2 Hy].
    inversion Hnd as [| ? ? Hnotin Hnd']; subst.
    assert (Hxy : x = y).
    { assert (Hin_x : In x (y :: r2))
        by (apply (Permutation_in _ Hperm); now left).
      assert (Hin_y : In y (x :: r1))
        by (apply (Permutation_in _ (Permutation_sym Hperm)); now left).
      destruct Hin_x as [-> | Hin_x]; [reflexivity |].
      destruct Hin_y as [-> | Hin_y]; [reflexivity |].
      rewrite Forall_forall in Hx, Hy.
      pose proof (key_le_antisym _ _ (Hx y Hin_y) (Hy x Hin_x)) as Hk.
      exfalso. apply Hnotin. rewrite Hk. now apply in_map. }
    subst y. f_equal.
    apply IH; auto. now apply Permutation_cons_inv in Hperm.
Qed.

Lemma py_sorted_of_permutation l1 l2 :
  Permutation l1 l2 ->
  NoDup (map key l1) ->
  py_sorted key l1 = py_sorted key l2.
Proof.
  intros Hperm Hnd.
  apply sorted_unique; try apply py_sorted_sorted.
  - rewrite <- (py_sorted_perm l1), <- (py_sorted_perm l2). exact Hperm.
  - apply (Permutation_NoDup (l := map key l1)); [| exact Hnd].
    apply Permutation_map, py_sorted_perm.
Qed.

End Sorting.

(** X10. Sorting loses and adds no clip, and orders the clips by the
    number in their name: a clip that comes before another never has the
    larger number, and a clip without a number never comes before a
    numbered one. *)
Theorem sort_clips_ordered clips_uploaded :
  Permutation clips_uploaded (sort_clips clips_uploaded) /\
  forall before x between y after,
    sort_clips clips_uploaded = before ++ x :: between ++ y :: after ->
    match extract_number (name x), extract_number (name y) with
    | Num a, Num b => (a <= b)%nat
    | Num _, Inf => True
    | Inf, Num _ => False
    | Inf, Inf => True
    end.
Proof.
  split; [apply py_sorted_perm |].
  intros before x between y after Heq.
  pose proof (py_sorted_sorted (fun x => extract_number (name x)) clips_uploaded)
    as Hs.
  fold (sort_clips clips_uploaded) in Hs. rewrite Heq in Hs.
  assert (Hxy : key_le (extract_number (name x)) (extract_number (name y))).
  { clear Heq. induction before as [| z before IH]; cbn [app] in Hs.
    - apply StronglySorted_inv in Hs. destruct Hs as [_ Hx].
      rewrite Forall_forall in Hx. apply Hx.
      apply in_or_app. right. now left.
    - apply StronglySorted_inv in Hs. destruct Hs as [Hs _]. now apply IH. }
  unfold key_le in Hxy.
  destruct (extract_number (name x)), (extract_number (name y));
    cbn in Hxy; try discriminate; auto.
  now apply Nat.ltb_ge.
Qed.

(** X11. Sorting is stable: the clips that have the same number, and the
    clips that have none, stay in the order of the upload. *)
Theorem sort_clips_stable clips_uploaded k :
  filter (fun x => key_eqb (extract_number (name x)) k)
    (sort_clips clips_uploaded)
  = filter (fun x => key_eqb (extract_number (name x)) k) clips_uploaded.
Proof.
  apply (py_sorted_filter (fun x => extract_number (name x))
           (fun a => key_eqb a k)).
  unfold key_eqb. intros a b Hab Hb.
  apply andb_prop in Hb. destruct Hb as [Hbk Hkb].
  apply negb_true_iff in Hbk, Hkb.
  apply andb_false_iff. left. apply negb_false_iff.
  destruct a, b, k; cbn in *; try discriminate; try reflexivity.
  apply Nat.ltb_lt in Hab. apply Nat.ltb_ge in Hbk, Hkb.
  apply Nat.ltb_lt. lia.
Qed.

(** X12. When no two uploaded names give the same value of
    [extract_number], the order of the upload does not matter: two uploads
    of the same files are sorted into the same list. *)
Theorem sort_clips_upload_order clips_uploaded clips_uploaded' :
  Permutation clips_uploaded clips_uploaded' ->
  NoDup (map (fun x => extract_number (name x)) clips_uploaded) ->
  sort_clips clips_uploaded = sort_clips clips_uploaded'.
Proof. apply py_sorted_of_permutation. Qed.

Lemma sort_clips_upload_order_witness :
  sort_clips [mk_upload "clip10.mp4" 15; mk_upload "clip2.mp4" 20]
  = sort_clips [mk_upload "clip2.mp4" 20; mk_upload "clip10.mp4" 15].
Proof.
  refine (sort_clips_upload_order
            [mk_upload "clip10.mp4" 15; mk_upload "clip2.mp4" 20]
            [mk_upload "clip2.mp4" 20; mk_upload "clip10.mp4" 15] _ _).
  - apply perm_swap.
  - vm_compute. repeat constructor; cbn; intuition discriminate.
Defined.

(** ** Splitting a string *)

Lemma split_not_nil sep s : split sep s <> [].
Proof.
  destruct s as [| c s]; cbn [split]; [discriminate |].
  destruct (Ascii.eqb c sep); [discriminate |].
  destruct (split sep s); discriminate.
Qed.

Lemma split_length sep s :
  length (split sep s) = S (count_char sep s).
Proof.
  induction s as [| c s IH]; cbn [split count_char]; [reflexivity |].
  destruct (Ascii.eqb c sep); cbn [length Nat.add]; [now rewrite IH |].
  destruct (split sep s) as [| piece pieces] eqn:Hs; [discriminate |].
  exact IH.
Qed.

(** A string that splits into one piece is that piece, without separator. *)
Lemma split_single sep s : forall piece,
  split sep s = [piece] -> s = piece /\ count_char sep s = 0%nat.
Proof.
  induction s as [| c s IH]; intros piece H; cbn [split count_char] in *.
  - injection H as <-. now split.
  - destruct (Ascii.eqb c sep).
    + injection H as _ H. now apply split_not_nil in H.
    + destruct (split sep s) as [| p ps] eqn:Hs;
        [now apply split_not_nil in Hs |].
      injection H as <- ->. destruct (IH p eq_refl) as [-> Hc].
      now split.
Qed.

Lemma last_cons_not_nil (x : string) l d : l <> [] -> last (x :: l) d = last l d.
Proof. destruct l; [congruence | reflexivity]. Qed.

Lemma split_last sep s :
  count_char sep (last (split sep s) EmptyString) = 0%nat /\
  (s = last (split sep s) EmptyString \/
   exists stem, s = (stem ++ String sep (last (split sep s) EmptyString))%string).
Proof.
  induction s as [| c s [IHc IHs]]; cbn [split].
  - split; [reflexivity | now left].
  - destruct (Ascii.eqb_spec c sep) as [-> | Hc].
    + rewrite (last_cons_not_nil _ _ _ (split_not_nil sep s)).
      split; [exact IHc | right].
      destruct IHs as [Hs | [stem Hs]].
      * exists EmptyString. cbn [append]. now rewrite <- Hs.
      * exists (String sep stem). cbn [append]. now rewrite <- Hs.
    + destruct (split sep s) as [| piece pieces] eqn:Hsplit;
        [now apply split_not_nil in Hsplit |].
      destruct pieces as [| piece' pieces'].
      * destruct (split_single sep s piece Hsplit) as [-> Hcount].
        cbn [last]. split; [| now left].
        cbn [count_char]. destruct (Ascii.eqb_spec c sep); [congruence |].
        exact Hcount.
      * assert (Hlast : forall x, last (x :: piece' :: pieces') EmptyString
                          = last (piece' :: pieces') EmptyString)
          by (intro x; apply last_cons_not_nil; discriminate).
        rewrite Hlast in *. split; [exact IHc | right].
        destruct IHs as [Hs | [stem Hs]].
        -- exfalso. rewrite Hs in Hsplit at 1.
           assert (Hlen : length (split sep (last (piece' :: pieces') EmptyString))
                          = 1%nat) by (now rewrite split_length, IHc).
           rewrite Hsplit in Hlen. discriminate.
        -- exists (String c stem). cbn [append]. now rewrite <- Hs.
Qed.

(** X13. The extension [main] gives a temporary file is the part of the
    uploaded name after its last dot, or the whole name when it has no dot;
    it never contains a dot. *)
Theorem extension_is_after_last_dot file_name :
  count_char "." (extension file_name) = 0%nat /\
  (file_name = extension file_name \/
   exists stem, file_name = (stem ++ "." ++ extension file_name)%string).
Proof. exact (split_last "." file_name). Qed.

(** ** The temporary files *)

Lemma append_inj_l p : forall a b : string, (p ++ a = p ++ b)%string -> a = b.
Proof.
  induction p as [| c p IH]; intros a b H; cbn [append] in H; [exact H |].
  injection H as H. now apply IH.
Qed.

Lemma digits_before_dot a : forall b x y,
  all_digits a = true -> all_digits b = true ->
  (a ++ String "." x = b ++ String "." y)%string -> a = b.
Proof.
  induction a as [| c a IH]; intros [| c' b] x y Ha Hb H;
    cbn [append all_digits] in *.
  - reflexivity.
  - injection H as <- _. discriminate.
  - injection H as -> _. discriminate.
  - injection H as <- H. f_equal.
    apply andb_prop in Ha, Hb. apply (IH b x y); tauto.
Qed.

(** X14. The temporary files never collide: clips of different indices are
    written to different paths, whatever their names, and no clip is written
    to the path of the song. *)
Theorem temporary_paths_distinct :
  (forall i j clip_name clip_name',
     clip_path i clip_name = clip_path j clip_name' -> i = j) /\
  (forall song_name i clip_name,
     song_path song_name <> clip_path i clip_name).
Proof.
  split.
  - intros i j n n' H. unfold clip_path in H.
    apply (append_inj_l "temp_clip_") in H.
    apply str_injective.
    apply (digits_before_dot _ _ (extension n) (extension n'));
      auto using str_digits.
  - intros s i n H. unfold song_path, clip_path in H. cbn [append] in H.
    discriminate.
Qed.

(** ** The text inputs *)

Lemma parse_times_length py_float text times :
  parse_times py_float text = Some times ->
  length times = S (count_char "," text).
Proof.
  unfold parse_times. rewrite <- split_length.
  generalize (split "," text) as pieces. intro pieces. revert times.
  induction pieces as [| x pieces IH]; intros times H; cbn [fold_right] in H.
  - now injection H as <-.
  - destruct (py_float x) as [v |]; [| discriminate].
    destruct (fold_right _ _ pieces) as [vs |]; [| discriminate].
    injection H as <-. cbn [length]. f_equal. now apply IH.
Qed.

Lemma main_needs_lengths audio clips kill_times beat_drops o :
  main (Some audio) clips kill_times beat_drops = o ->
  (forall w, o <> Warned w) ->
  clips <> [] /\
  length kill_times = length clips /\
  length beat_drops = length clips.
Proof.
  intros <- Hw. unfold main in Hw.
  destruct clips as [| c clips]; [now elim (Hw NoClips) |].
  destruct (Nat.eqb_spec (length kill_times) (length (c :: clips)))
    as [Hk | Hk]; cbn [negb] in Hw; [| now elim (Hw KillTimesMismatch)].
  destruct (Nat.eqb_spec (length beat_drops) (length (c :: clips)))
    as [Hb | Hb]; cbn [negb] in Hw; [| now elim (Hw BeatDropsMismatch)].
  repeat split; auto. discriminate.
Qed.

(** X15. Pressing the button gets as far as [generate_montage] only when a
    song and at least one clip were uploaded and each of the two text
    inputs has exactly one comma less than there are clips: every comma
    separates two values, also a trailing one. *)
Theorem button_runs_with_matching_counts py_float song_file clips_uploaded
    kill_times_input beat_drops_input o :
  main_button py_float song_file clips_uploaded kill_times_input
    beat_drops_input = Handled o ->
  (forall w, o <> Warned w) ->
  song_file <> None /\
  clips_uploaded <> [] /\
  S (count_char "," kill_times_input) = length clips_uploaded /\
  S (count_char "," beat_drops_input) = length clips_uploaded.
Proof.
  unfold main_button. intros H Hw.
  assert (Hlen : length (sort_clips clips_uploaded) = length clips_uploaded)
    by (symmetry; apply Permutation_length, py_sorted_perm).
  destruct song_file as [song |];
    [| injection H as <-; now elim (Hw NoSong)].
  destruct (sort_clips clips_uploaded) as [| c sorted] eqn:Hsorted;
    [injection H as <-; now elim (Hw NoClips) |].
  destruct (parse_times py_float kill_times_input) as [kill_times |] eqn:Hk;
    [| discriminate].
  destruct (parse_times py_float beat_drops_input) as [beat_drops |] eqn:Hb;
    [| discriminate].
  assert (H' : main (Some (media_duration song))
                 (map media_duration (c :: sorted)) kill_times beat_drops = o)
    by congruence.
  destruct (main_needs_lengths _ _ _ _ _ H' Hw) as (_ & Hkl & Hbl).
  rewrite length_map in Hkl, Hbl.
  rewrite (parse_times_length _ _ _ Hk) in Hkl.
  rewrite (parse_times_length _ _ _ Hb) in Hbl.
  repeat split; try congruence.
  intros ->. discriminate.
Qed.

Lemma button_runs_with_matching_counts_witness :
  Some (mk_upload "song.mp3" 30) <> None /\
  [mk_upload "clip2.mp4" 15; mk_upload "clip1.mp4" 20] <> [] /\
  S (count_char "," "13,8")
    = length [mk_upload "clip2.mp4" 15; mk_upload "clip1.mp4" 20] /\
  S (count_char "," "8,10.5")
    = length [mk_upload "clip2.mp4" 15; mk_upload "clip1.mp4" 20].
Proof.
  refine (button_runs_with_matching_counts scenario_float
            (Some (mk_upload "song.mp3" 30))
            [mk_upload "clip2.mp4" 15; mk_upload "clip1.mp4" 20]
            "13,8" "8,10.5"
            (Generated [mk_subclip 0 0 14 (-5); scenario_second] 30) _ _).
  - vm_compute. reflexivity.
  - intros w. discriminate.
Defined.

(** ** The checks of [main] and the exceptions of the planner *)

Lemma for_loop_raises_type_error beat_drops l : forall i st e,
  (i + length l <= length beat_drops)%nat ->
  for_loop beat_drops i l st = Raise e -> e = TypeError.
Proof.
  induction l as [| c l IH]; intros i st e Hlen Hrun;
    cbn [for_loop length] in *; [discriminate |].
  destruct (loop_body beat_drops i c st) as [st1 | e1] eqn:Hbody;
    cbn [bind] in Hrun.
  - apply (IH (S i) st1 e); [lia | exact Hrun].
  - injection Hrun as <-. revert Hbody. unfold loop_body, py_index.
    destruct (nth_error beat_drops i) as [beat_time |] eqn:Hbeat;
      [| apply nth_error_None in Hbeat; lia].
    cbn [bind]. unfold raw_local_start.
    destruct (Nat.eqb i 0); cbn [bind].
    + destruct (py_ge _ _); discriminate.
    + destruct (previous_kill_final_time st); cbn [bind].
      * destruct (py_ge _ _); discriminate.
      * intro H. now injection H as <-.
Qed.

Lemma build_clips_info_length clip_durations kill_times :
  length kill_times = length clip_durations ->
  length (build_clips_info clip_durations kill_times) = length clip_durations.
Proof.
  intro H. unfold build_clips_info.
  rewrite length_map, length_combine, H. apply Nat.min_id.
Qed.

(** X16. When there are as many kill times and as many beat drops as
    clips, as the checks of [main] require, the planning loop never fails on
    [beat_drops[i]]: the only exception it can raise is the [TypeError] of a
    skipped first clip. *)
Theorem checked_lengths_exclude_index_error clips_uploaded kill_times
    beat_drops e :
  length kill_times = length clips_uploaded ->
  length beat_drops = length clips_uploaded ->
  plan_loop beat_drops (build_clips_info clips_uploaded kill_times) = Raise e ->
  e = TypeError.
Proof.
  intros Hk Hb Hrun. unfold plan_loop in Hrun.
  apply for_loop_raises_type_error in Hrun; [exact Hrun |].
  rewrite (build_clips_info_length _ _ Hk), Hb. cbn. lia.
Qed.

Lemma checked_lengths_exclude_index_error_witness : TypeError = TypeError.
Proof.
  refine (checked_lengths_exclude_index_error [0; 15] [0; 8] [8; 10.5]
            TypeError _ _ _); reflexivity.
Defined.

Lemma sort_clips_ordered_witness :
  match extract_number (name (mk_upload "clip2.mp4" 20)),
        extract_number (name (mk_upload "clip10.mp4" 15)) with
  | Num a, Num b => (a <= b)%nat
  | Num _, Inf => True
  | Inf, Num _ => False
  | Inf, Inf => True
  end.
Proof.
  refine (proj2 (sort_clips_ordered
                   [mk_upload "clip10.mp4" 15; mk_upload "clip2.mp4" 20])
            [] (mk_upload "clip2.mp4" 20) [] (mk_upload "clip10.mp4" 15) [] _).
  vm_compute. reflexivity.
Defined.

Lemma temporary_paths_distinct_witness : 3%nat = 3%nat.
Proof.
  refine (proj1 temporary_paths_distinct 3%nat 3%nat
            "a.mp4"%string "b.mp4"%string _).
  reflexivity.
Defined.

(** ** The loop in binary64 *)





(** ** Alignment, as the program computes it *)




(** ** The start of a later clip, as the program computes it *)




